(** * The music playback controller of SDL_mixer (SDL_mixer/music.c)

    A shallow embedding of the playback controller: the decoder registry,
    the format detector, the play / fade / halt state machine and the mixing
    callback, followed by the properties of the specification that concern
    them.

    Conventions of the embedding.
    - A C [int] is a [Z]; arithmetic that can leave the 32-bit range is
      written with [wrap_int] (two's complement wrap-around), and a division
      whose C behaviour is undefined (divisor 0, INT_MIN / -1) faults.
    - The [Mix_Music] objects live in a store ([heap]) and are named by
      address, so [music_playing] and a caller's [Mix_Music *] can alias.
    - A function of the C file is a computation [M A]: from a state it
      returns a value and a new state, faults (undefined behaviour: a null
      or dangling dereference, a division by zero) or is still waiting for
      the audio thread when the schedule it was given ends.
    - The WAV decoder behind wavestream.h is an interface ([WAVStreamOps]);
      the preprocessor symbol WAV_MUSIC is a boolean parameter. *)

From Stdlib Require Import ZArith List Lia Strings.Byte Floats.PrimFloat.
From stdpp Require Import gmap strings.

Local Open Scope Z_scope.

(** ** Machine integers *)

Definition INT_MIN : Z := - 2 ^ 31.
Definition INT_MAX : Z := 2 ^ 31 - 1.

Definition in_int (z : Z) : Prop := INT_MIN <= z <= INT_MAX.

Definition wrap_int (z : Z) : Z := (z + 2 ^ 31) mod 2 ^ 32 - 2 ^ 31.

Definition int_add (a b : Z) : Z := wrap_int (a + b).
Definition int_sub (a b : Z) : Z := wrap_int (a - b).
Definition int_mul (a b : Z) : Z := wrap_int (a * b).

(** C's [/] on [int]: truncation toward zero; undefined for a zero divisor
    and for INT_MIN / -1. *)
Definition int_div (a b : Z) : option Z :=
  if b =? 0 then None
  else if (a =? INT_MIN) && (b =? -1) then None
  else Some (Z.quot a b).

(** ** Types of SDL_mixer.h *)

(** Modelled from the spec: SDL_mixer.h is not among the sources.  The
    format tags of the data model (WAV, OGG, FLAC, MIDI, MP3, MOD, NONE),
    under the names music.c uses, with the header's other tags. *)
Inductive Mix_MusicType : Type :=
| MUS_NONE | MUS_CMD | MUS_WAV | MUS_MOD | MUS_MID | MUS_OGG
| MUS_MP3 | MUS_MP3_MAD | MUS_FLAC | MUS_MODPLUG.

(** Modelled from the spec: the fade states NONE, FADING_OUT, FADING_IN. *)
Inductive Mix_Fading : Type :=
| MIX_NO_FADING | MIX_FADING_OUT | MIX_FADING_IN.

#[global] Instance Mix_MusicType_eq_dec : EqDecision Mix_MusicType.
Proof. solve_decision. Defined.

#[global] Instance Mix_Fading_eq_dec : EqDecision Mix_Fading.
Proof. solve_decision. Defined.

(** Modelled from the spec: MAX, the top of the volume range (128 in SDL's
    headers, which are not among the sources). *)
Definition SDL_MIX_MAXVOLUME : Z := 128.
Definition MIX_MAX_VOLUME : Z := 128.

(** Addresses of [Mix_Music] objects, handles of [WAVStream] objects and
    addresses of finished-hooks. *)
Definition ptr : Type := nat.
Definition wave_ptr : Type := nat.
Definition hook_ptr : Type := nat.

(** [struct _Mix_Music] *)
Record Mix_Music : Type := {
  type : Mix_MusicType;
  wave : wave_ptr;            (* data.wave *)
  fading : Mix_Fading;
  fade_step : Z;
  fade_steps : Z;
  error : Z
}.

Definition set_fading (f : Mix_Fading) (m : Mix_Music) : Mix_Music :=
  {| type := type m; wave := wave m; fading := f;
     fade_step := fade_step m; fade_steps := fade_steps m; error := error m |}.

Definition set_fade_step (n : Z) (m : Mix_Music) : Mix_Music :=
  {| type := type m; wave := wave m; fading := fading m;
     fade_step := n; fade_steps := fade_steps m; error := error m |}.

Definition set_fade_steps (n : Z) (m : Mix_Music) : Mix_Music :=
  {| type := type m; wave := wave m; fading := fading m;
     fade_step := fade_step m; fade_steps := n; error := error m |}.

(** ** The WAV decoder interface (wavestream.h)

    wavestream.h and the decoder are not among the sources: the operations
    music.c calls are the methods of a class.  The decoder keeps its own
    state [W] (the stream being played, its read position, its volume).
    [WAVStream_Active] and [WAVStream_PlaySome] return C [int]s; the sample
    buffer written by [WAVStream_PlaySome] is part of [W]. *)
Class WAVStreamOps (W : Type) : Type := {
  WAVStream_Start : wave_ptr -> W -> W;
  WAVStream_Stop : W -> W;
  WAVStream_SetVolume : Z -> W -> W;
  WAVStream_Active : W -> Z;
  WAVStream_PlaySome : Z -> W -> Z * W
}.

(** ** Byte sources (SDL_RWops) *)

(** Modelled from the spec: SDL's RWops is not among the sources.  The
    seekable, readable byte source of the external interfaces, with [tell],
    [read] and [seek]: the bytes and the read position, as a source backed
    by memory. *)
Record SDL_RWops : Type := {
  rw_data : list byte;
  rw_here : Z
}.

Definition rw_size (src : SDL_RWops) : Z := Z.of_nat (length (rw_data src)).

(** Modelled from the spec: [SDL_RWtell(src)], the [tell] of the byte
    source. *)
Definition SDL_RWtell (src : SDL_RWops) : Z := rw_here src.

Definition byte_val (b : byte) : Z := Z.of_N (Byte.to_N b).

(** Modelled from the spec: [SDL_RWread(src, buf, 1, maxnum)], the [read]
    of the byte source.  It copies as many of the [maxnum] bytes as remain
    (a short read when fewer remain), advances the position by that many,
    and returns the count with the bytes copied. *)
Definition SDL_RWread (src : SDL_RWops) (maxnum : Z) : Z * list Z * SDL_RWops :=
  let mem_available := rw_size src - rw_here src in
  let total_bytes := if mem_available <? maxnum then mem_available else maxnum in
  let total_bytes := Z.max 0 total_bytes in
  let bytes := take (Z.to_nat total_bytes) (drop (Z.to_nat (rw_here src)) (rw_data src)) in
  (total_bytes, byte_val <$> bytes,
   {| rw_data := rw_data src; rw_here := rw_here src + total_bytes |}).

(** Modelled from the spec: [SDL_RWseek(src, offset, RW_SEEK_SET)], the
    [seek] of the byte source; the position is clamped to the extent of the
    data. *)
Definition SDL_RWseek_SET (src : SDL_RWops) (offset : Z) : Z * SDL_RWops :=
  let newpos := if offset <? 0 then 0
                else if rw_size src <? offset then rw_size src else offset in
  (newpos, {| rw_data := rw_data src; rw_here := newpos |}).

(** ** C strings *)

(** The bytes of a string literal, with its terminating NUL. *)
Definition c_str (s : string) : list Z :=
  (byte_val <$> String.list_byte_of_string s) ++ [0].

(** [buf[i]]; the buffers below are read only inside their extent. *)
Definition char_at (buf : list Z) (i : nat) : Z := nth i buf 0.

(** [strncmp(s1, s2, n)]: the difference of the first pair of bytes that
    differ among the first [n], 0 when a NUL is reached before. *)
Fixpoint strncmp (s1 s2 : list Z) (n : nat) : Z :=
  match n with
  | O => 0
  | S n' =>
      let c1 := char_at s1 0 in
      let c2 := char_at s2 0 in
      if c1 =? c2 then
        if c1 =? 0 then 0 else strncmp (tail s1) (tail s2) n'
      else c1 - c2
  end.

(** [strcmp(s1, s2)], for buffers that hold a NUL: no comparison goes past
    the extent of [s1]. *)
Definition strcmp (s1 s2 : list Z) : Z := strncmp s1 s2 (length s1).

(** ** The playback session *)

Section Controller.

Context {W : Type} {wav_ops : WAVStreamOps W}.

(** The preprocessor symbol WAV_MUSIC: [true] when it is defined. *)
Variable WAV_MUSIC : bool.

(** The file's static variables, the store of [Mix_Music] objects, the
    decoder's state, SDL's error slot and the trace of the finished-hooks
    called so far. *)
Record State : Type := {
  music_active : Z;
  music_stopped : Z;
  music_loops : Z;
  music_playing : option ptr;
  music_volume : Z;
  ms_per_step : Z;
  music_decoders : list string;
  num_decoders : Z;
  music_finished_hook : option hook_ptr;
  heap : gmap ptr Mix_Music;
  wav : W;
  SDL_error : string;
  finished_calls : list hook_ptr
}.

Definition set_music_active (v : Z) (st : State) : State :=
  {| music_active := v;
     music_stopped := music_stopped st;
     music_loops := music_loops st;
     music_playing := music_playing st;
     music_volume := music_volume st;
     ms_per_step := ms_per_step st;
     music_decoders := music_decoders st;
     num_decoders := num_decoders st;
     music_finished_hook := music_finished_hook st;
     heap := heap st;
     wav := wav st;
     SDL_error := SDL_error st;
     finished_calls := finished_calls st |}.

Definition set_music_stopped (v : Z) (st : State) : State :=
  {| music_active := music_active st;
     music_stopped := v;
     music_loops := music_loops st;
     music_playing := music_playing st;
     music_volume := music_volume st;
     ms_per_step := ms_per_step st;
     music_decoders := music_decoders st;
     num_decoders := num_decoders st;
     music_finished_hook := music_finished_hook st;
     heap := heap st;
     wav := wav st;
     SDL_error := SDL_error st;
     finished_calls := finished_calls st |}.

Definition set_music_loops (v : Z) (st : State) : State :=
  {| music_active := music_active st;
     music_stopped := music_stopped st;
     music_loops := v;
     music_playing := music_playing st;
     music_volume := music_volume st;
     ms_per_step := ms_per_step st;
     music_decoders := music_decoders st;
     num_decoders := num_decoders st;
     music_finished_hook := music_finished_hook st;
     heap := heap st;
     wav := wav st;
     SDL_error := SDL_error st;
     finished_calls := finished_calls st |}.

Definition set_music_playing (v : option ptr) (st : State) : State :=
  {| music_active := music_active st;
     music_stopped := music_stopped st;
     music_loops := music_loops st;
     music_playing := v;
     music_volume := music_volume st;
     ms_per_step := ms_per_step st;
     music_decoders := music_decoders st;
     num_decoders := num_decoders st;
     music_finished_hook := music_finished_hook st;
     heap := heap st;
     wav := wav st;
     SDL_error := SDL_error st;
     finished_calls := finished_calls st |}.

Definition set_music_volume (v : Z) (st : State) : State :=
  {| music_active := music_active st;
     music_stopped := music_stopped st;
     music_loops := music_loops st;
     music_playing := music_playing st;
     music_volume := v;
     ms_per_step := ms_per_step st;
     music_decoders := music_decoders st;
     num_decoders := num_decoders st;
     music_finished_hook := music_finished_hook st;
     heap := heap st;
     wav := wav st;
     SDL_error := SDL_error st;
     finished_calls := finished_calls st |}.

Definition set_ms_per_step (v : Z) (st : State) : State :=
  {| music_active := music_active st;
     music_stopped := music_stopped st;
     music_loops := music_loops st;
     music_playing := music_playing st;
     music_volume := music_volume st;
     ms_per_step := v;
     music_decoders := music_decoders st;
     num_decoders := num_decoders st;
     music_finished_hook := music_finished_hook st;
     heap := heap st;
     wav := wav st;
     SDL_error := SDL_error st;
     finished_calls := finished_calls st |}.

Definition set_music_decoders (v : list string) (st : State) : State :=
  {| music_active := music_active st;
     music_stopped := music_stopped st;
     music_loops := music_loops st;
     music_playing := music_playing st;
     music_volume := music_volume st;
     ms_per_step := ms_per_step st;
     music_decoders := v;
     num_decoders := num_decoders st;
     music_finished_hook := music_finished_hook st;
     heap := heap st;
     wav := wav st;
     SDL_error := SDL_error st;
     finished_calls := finished_calls st |}.

Definition set_num_decoders (v : Z) (st : State) : State :=
  {| music_active := music_active st;
     music_stopped := music_stopped st;
     music_loops := music_loops st;
     music_playing := music_playing st;
     music_volume := music_volume st;
     ms_per_step := ms_per_step st;
     music_decoders := music_decoders st;
     num_decoders := v;
     music_finished_hook := music_finished_hook st;
     heap := heap st;
     wav := wav st;
     SDL_error := SDL_error st;
     finished_calls := finished_calls st |}.

Definition set_music_finished_hook (v : option hook_ptr) (st : State) : State :=
  {| music_active := music_active st;
     music_stopped := music_stopped st;
     music_loops := music_loops st;
     music_playing := music_playing st;
     music_volume := music_volume st;
     ms_per_step := ms_per_step st;
     music_decoders := music_decoders st;
     num_decoders := num_decoders st;
     music_finished_hook := v;
     heap := heap st;
     wav := wav st;
     SDL_error := SDL_error st;
     finished_calls := finished_calls st |}.

Definition set_heap (v : gmap ptr Mix_Music) (st : State) : State :=
  {| music_active := music_active st;
     music_stopped := music_stopped st;
     music_loops := music_loops st;
     music_playing := music_playing st;
     music_volume := music_volume st;
     ms_per_step := ms_per_step st;
     music_decoders := music_decoders st;
     num_decoders := num_decoders st;
     music_finished_hook := music_finished_hook st;
     heap := v;
     wav := wav st;
     SDL_error := SDL_error st;
     finished_calls := finished_calls st |}.

Definition set_wav (v : W) (st : State) : State :=
  {| music_active := music_active st;
     music_stopped := music_stopped st;
     music_loops := music_loops st;
     music_playing := music_playing st;
     music_volume := music_volume st;
     ms_per_step := ms_per_step st;
     music_decoders := music_decoders st;
     num_decoders := num_decoders st;
     music_finished_hook := music_finished_hook st;
     heap := heap st;
     wav := v;
     SDL_error := SDL_error st;
     finished_calls := finished_calls st |}.

Definition set_SDL_error (v : string) (st : State) : State :=
  {| music_active := music_active st;
     music_stopped := music_stopped st;
     music_loops := music_loops st;
     music_playing := music_playing st;
     music_volume := music_volume st;
     ms_per_step := ms_per_step st;
     music_decoders := music_decoders st;
     num_decoders := num_decoders st;
     music_finished_hook := music_finished_hook st;
     heap := heap st;
     wav := wav st;
     SDL_error := v;
     finished_calls := finished_calls st |}.

Definition set_finished_calls (v : list hook_ptr) (st : State) : State :=
  {| music_active := music_active st;
     music_stopped := music_stopped st;
     music_loops := music_loops st;
     music_playing := music_playing st;
     music_volume := music_volume st;
     ms_per_step := ms_per_step st;
     music_decoders := music_decoders st;
     num_decoders := num_decoders st;
     music_finished_hook := music_finished_hook st;
     heap := heap st;
     wav := wav st;
     SDL_error := SDL_error st;
     finished_calls := v |}.

(** ** Computations *)

Inductive outcome (A : Type) : Type :=
| Returns (a : A) (st : State)   (* the call returns [a] in state [st] *)
| Faults                         (* undefined behaviour *)
| Waits.                         (* blocked on the audio thread *)

Arguments Returns {A} a st.
Arguments Faults {A}.
Arguments Waits {A}.

Definition M (A : Type) : Type := State -> outcome A.

#[global] Instance M_ret : MRet M := fun A a st => Returns a st.

#[global] Instance M_bind : MBind M := fun A B f m st =>
  match m st with
  | Returns a st' => f a st'
  | Faults => Faults
  | Waits => Waits
  end.

Definition fault {A : Type} : M A := fun _ => Faults.

Definition waits {A : Type} : M A := fun _ => Waits.

Definition gets {A : Type} (f : State -> A) : M A := fun st => Returns (f st) st.

Definition modify (f : State -> State) : M unit := fun st => Returns tt (f st).

(** [*p] for a [Mix_Music *]. *)
Definition deref (p : ptr) : M Mix_Music := fun st =>
  match heap st !! p with
  | Some m => Returns m st
  | None => Faults
  end.

(** [p->field = v], with [f] the update of the field. *)
Definition store (p : ptr) (f : Mix_Music -> Mix_Music) : M unit := fun st =>
  match heap st !! p with
  | Some m => Returns tt (set_heap (<[p := f m]> (heap st)) st)
  | None => Faults
  end.

(** The object [music_playing] points to; null faults. *)
Definition playing_ptr : M ptr := fun st =>
  match music_playing st with
  | Some p => Returns p st
  | None => Faults
  end.

Definition Mix_SetError (msg : string) : M unit := modify (set_SDL_error msg).

(** [if ( music_finished_hook ) music_finished_hook();]  The hook is code
    of the application: the call is recorded, what the hook does is not
    modelled. *)
Definition call_music_finished_hook : M unit :=
  hook ← gets music_finished_hook;
  match hook with
  | Some h => modify (fun st => set_finished_calls (finished_calls st ++ [h]) st)
  | None => mret tt
  end.

Definition wav_call (f : W -> W) : M unit := modify (fun st => set_wav (f (wav st)) st).

(** [WAVStream_PlaySome(stream, len)] *)
Definition wav_play_some (len : Z) : M Z := fun st =>
  let r := WAVStream_PlaySome len (wav st) in
  Returns (fst r) (set_wav (snd r) st).

(** ** Decoder registry *)

Definition Mix_GetNumMusicDecoders : M Z := gets num_decoders.

(** The result is a [const char *]: [None] is NULL.  Reading the array
    outside its extent faults. *)
Definition Mix_GetMusicDecoder (index : Z) : M (option string) :=
  n ← gets num_decoders;
  if (index <? 0) || (index >=? n) then mret None
  else
    decoders ← gets music_decoders;
    match decoders !! Z.to_nat index with
    | Some name => mret (Some name)
    | None => fault
    end.

(** [realloc_ok] tells whether [SDL_realloc] succeeds. *)
Definition add_music_decoder (realloc_ok : bool) (decoder : string) : M unit :=
  if negb realloc_ok then mret tt  (* oh well, go on without it. *)
  else
    n ← gets num_decoders;
    modify (fun st => set_music_decoders
      (<[Z.to_nat n := decoder]> (resize (Z.to_nat (n + 1)) ""%string (music_decoders st))) st);;
    modify (set_num_decoders (int_add n 1)).

(** ** Format detection *)

Definition detect_mp3 (magic : list Z) : Z :=
  if strncmp magic (c_str "ID3") 3 =? 0 then 1
  else if negb (Z.land (char_at magic 0) 0xff =? 0xff)    (* No sync bits *)
       || negb (Z.land (char_at magic 1) 0xf0 =? 0xf0)
       || (Z.land (char_at magic 2) 0xf0 =? 0x00)         (* Bitrate is 0 *)
       || (Z.land (char_at magic 2) 0xf0 =? 0xf0)         (* Bitrate is 15 *)
       || (Z.land (char_at magic 2) 0x0c =? 0x0c)         (* Frequency is 3 *)
       || (Z.land (char_at magic 1) 0x06 =? 0x00)         (* Layer is 4 *)
  then 0
  else 1.

(** [magic] and [moremagic] are filled by the two reads; a buffer is the
    bytes read followed by the cells not written yet. *)
Definition fill (bytes : list Z) (size : nat) : list Z :=
  bytes ++ replicate (size - length bytes) 0.

Definition detect_music_type (src : SDL_RWops) : M (Mix_MusicType * SDL_RWops) :=
  let start := SDL_RWtell src in
  let '(n1, bytes1, src1) := SDL_RWread src 4 in
  let magic := fill bytes1 5 in
  if negb (n1 =? 4) then
    Mix_SetError "Couldn't read from RWops";; mret (MUS_NONE, src1)
  else
    let '(n2, bytes2, src2) := SDL_RWread src1 8 in
    let moremagic := fill bytes2 9 in
    if negb (n2 =? 8) then
      Mix_SetError "Couldn't read from RWops";; mret (MUS_NONE, src2)
    else
      let src3 := snd (SDL_RWseek_SET src2 start) in
      let magic := <[4%nat := 0]> magic in
      let moremagic := <[8%nat := 0]> moremagic in
      (* WAVE files have the magic four bytes "RIFF"
         AIFF files have the magic 12 bytes "FORM" XXXX "AIFF" *)
      if ((strcmp magic (c_str "RIFF") =? 0)
            && (strcmp (drop 4 moremagic) (c_str "WAVE") =? 0))
         || (strcmp magic (c_str "FORM") =? 0)
      then mret (MUS_WAV, src3)
      (* Ogg Vorbis files have the magic four bytes "OggS" *)
      else if strcmp magic (c_str "OggS") =? 0 then mret (MUS_OGG, src3)
      (* FLAC files have the magic four bytes "fLaC" *)
      else if strcmp magic (c_str "fLaC") =? 0 then mret (MUS_FLAC, src3)
      (* MIDI files have the magic four bytes "MThd" *)
      else if strcmp magic (c_str "MThd") =? 0 then mret (MUS_MID, src3)
      else if negb (detect_mp3 magic =? 0) then mret (MUS_MP3, src3)
      (* Assume MOD format. *)
      else mret (MUS_MOD, src3).

(** ** Local low-level functions *)

(** The [case MUS_WAV:] of a switch exists under [#ifdef WAV_MUSIC]. *)
Definition has_case (t : Mix_MusicType) : bool :=
  match t with
  | MUS_WAV => WAV_MUSIC
  | _ => false
  end.

(** Set the music volume *)
Definition music_internal_volume (volume : Z) : M unit :=
  p ← playing_ptr;
  m ← deref p;
  if has_case (type m) then wav_call (WAVStream_SetVolume volume)
  else mret tt.  (* Unknown music type?? *)

(** Set the music's initial volume *)
Definition music_internal_initialize_volume : M unit :=
  p ← playing_ptr;
  m ← deref p;
  if decide (fading m = MIX_FADING_IN) then music_internal_volume 0
  else
    v ← gets music_volume;
    music_internal_volume v.

(** Halt playing of music *)
Definition music_internal_halt : M unit :=
  p ← playing_ptr;
  m ← deref p;
  if has_case (type m) then
    wav_call WAVStream_Stop;;
    p ← playing_ptr;
    store p (set_fading MIX_NO_FADING);;
    modify (set_music_playing None)
  else mret tt.  (* Unknown music type?? *)

(** Set the playing music position: no backend implements it. *)
Definition music_internal_position (position : float) : M Z :=
  p ← playing_ptr;
  _ ← deref p;
  mret (-1).

(** Check the status of the music *)
Definition music_internal_playing : M Z :=
  mp ← gets music_playing;
  match mp with
  | None => mret 0
  | Some p =>
      m ← deref p;
      if has_case (type m) then
        active ← gets (fun st => WAVStream_Active (wav st));
        if active =? 0 then mret 0 else mret 1
      else mret 0
  end.

(** Play a music chunk.  Returns 0, or -1 if there was an error. *)
Definition music_internal_play (music : ptr) (position : float) : M Z :=
  (* Note the music we're playing *)
  mp ← gets music_playing;
  (if mp is Some _ then music_internal_halt else mret tt);;
  modify (set_music_playing (Some music));;
  (* Set the initial volume *)
  m ← deref music;
  (if decide (type m = MUS_MOD) then mret tt
   else music_internal_initialize_volume);;
  (* Set up for playback *)
  m ← deref music;
  retval ← (if has_case (type m) then
              wav_call (WAVStream_Start (wave m));; mret 0
            else
              Mix_SetError "Can't play unknown music type";; mret (-1));
  (* Set the playback position, note any errors if an offset is used *)
  retval ← (if retval =? 0 then
              if PrimFloat.ltb 0 position then
                r ← music_internal_position position;
                if r <? 0 then
                  Mix_SetError "Position not implemented for music type";;
                  mret (-1)
                else mret retval
              else
                _ ← music_internal_position 0;
                mret retval
            else mret retval);
  (* If the setup failed, we're not playing any music anymore *)
  (if retval <? 0 then modify (set_music_playing None) else mret tt);;
  mret retval.

(** If music isn't playing, halt it if no looping is required, restart it
    otherwise.  NOP if the music is playing *)
Definition music_halt_or_loop : M Z :=
  playing ← music_internal_playing;
  if playing =? 0 then
    (* Restart music if it has to loop at a high level *)
    loops ← gets music_loops;
    if negb (loops =? 0) then
      (* no overflow: the decrement is of a positive [int] *)
      (if loops >? 0 then modify (set_music_loops (loops - 1)) else mret tt);;
      p ← playing_ptr;
      m ← deref p;
      let current_fade := fading m in
      _ ← music_internal_play p 0;
      p ← playing_ptr;
      store p (set_fading current_fade);;
      mret 1
    else
      music_internal_halt;;
      call_music_finished_hook;;
      mret 0
  else mret 1.

(** ** Mixing function *)

(** [a / b] of two [int]s inside a computation. *)
Definition div_or_fault (a b : Z) : M Z :=
  match int_div a b with
  | Some q => mret q
  | None => fault
  end.

(** [music_mixer(udata, stream, len)].  The buffer belongs to the decoder;
    only [len] is kept.  The recursive call is on [left < len]: [fuel]
    bounds the depth, and [Z.to_nat len] is always enough. *)
Fixpoint music_mixer_rec (fuel : nat) (len : Z) : M unit :=
  (* Handle seamless music looping *)
  let looping (left : Z) : M unit :=
    if (left >? 0) && (left <? len) then
      _ ← music_halt_or_loop;
      playing ← music_internal_playing;
      if negb (playing =? 0) then
        match fuel with
        | S fuel' => music_mixer_rec fuel' left
        | O => fault
        end
      else mret tt
    else mret tt in
  let mixing : M unit :=
    _ ← music_halt_or_loop;
    playing ← music_internal_playing;
    if playing =? 0 then mret tt
    else
      p ← playing_ptr;
      m ← deref p;
      if has_case (type m) then
        left ← wav_play_some len;
        looping left
      else looping 0 in
  mp ← gets music_playing;
  active ← gets music_active;
  if (if mp is Some _ then true else false) && negb (active =? 0) then
    p ← playing_ptr;
    m ← deref p;
    (* Handle fading *)
    if decide (fading m = MIX_NO_FADING) then mixing
    else
      store p (set_fade_step (int_add (fade_step m) 1));;
      if fade_step m <? fade_steps m then
        m ← deref p;
        let fade_step := fade_step m in
        let fade_steps := fade_steps m in
        mv ← gets music_volume;
        volume ← (if decide (fading m = MIX_FADING_OUT) then
                    div_or_fault (int_mul mv (int_sub fade_steps fade_step)) fade_steps
                  else (* Fading in *)
                    div_or_fault (int_mul mv fade_step) fade_steps);
        music_internal_volume volume;;
        mixing
      else
        m ← deref p;
        if decide (fading m = MIX_FADING_OUT) then
          music_internal_halt;;
          call_music_finished_hook
        else
          store p (set_fading MIX_NO_FADING);;
          mixing
  else looping 0.

Definition music_mixer (len : Z) : M unit := music_mixer_rec (Z.to_nat len) len.

(** ** The caller-facing operations *)

Definition Mix_HookMusicFinished (music_finished : option hook_ptr) : M unit :=
  modify (set_music_finished_hook music_finished).

(** The audio thread runs whole callbacks while the caller sleeps in
    [SDL_Delay] with the lock released: a schedule lists, for each sleep,
    the [len] of the callbacks that ran during it. *)
Definition schedule : Type := list (list Z).

Fixpoint run_callbacks (lens : list Z) : M unit :=
  match lens with
  | [] => mret tt
  | len :: lens' => music_mixer len;; run_callbacks lens'
  end.

(** [while ( music_playing && (music_playing->fading == MIX_FADING_OUT) )
       { SDL_UnlockAudio(); SDL_Delay(100); SDL_LockAudio(); }] *)
Fixpoint wait_for_fade_out (sched : schedule) : M unit :=
  mp ← gets music_playing;
  match mp with
  | None => mret tt
  | Some p =>
      m ← deref p;
      if decide (fading m = MIX_FADING_OUT) then
        match sched with
        | [] => waits
        | lens :: sched' => run_callbacks lens;; wait_for_fade_out sched'
        end
      else mret tt
  end.

(** [music] is a [Mix_Music *]: [None] is NULL. *)
Definition Mix_FadeInMusicPos (sched : schedule)
    (music : option ptr) (loops ms : Z) (position : float) : M Z :=
  step ← gets ms_per_step;
  if step =? 0 then
    Mix_SetError "Audio device hasn't been opened";; mret (-1)
  else
    (* Don't play null pointers :-) *)
    match music with
    | None => Mix_SetError "music parameter was NULL";; mret (-1)
    | Some music =>
        (* Setup the data *)
        store music (set_fading (if ms =? 0 then MIX_NO_FADING else MIX_FADING_IN));;
        store music (set_fade_step 0);;
        steps ← div_or_fault ms step;
        store music (set_fade_steps steps);;
        (* Play the puppy *)
        (* If the current music is fading out, wait for the fade to complete *)
        wait_for_fade_out sched;;
        modify (set_music_active 1);;
        (* Loop is the number of times to play the audio *)
        let loops := if loops =? 1 then 0 else loops in
        modify (set_music_loops loops);;
        music_internal_play music position
    end.

Definition Mix_FadeInMusic (sched : schedule) (music : option ptr) (loops ms : Z) : M Z :=
  Mix_FadeInMusicPos sched music loops ms 0.

Definition Mix_PlayMusic (sched : schedule) (music : option ptr) (loops : Z) : M Z :=
  Mix_FadeInMusicPos sched music loops 0 0.

Definition Mix_SetMusicPosition (position : float) : M Z :=
  mp ← gets music_playing;
  if mp is Some _ then
    retval ← music_internal_position position;
    (if retval <? 0 then Mix_SetError "Position not implemented for music type"
     else mret tt);;
    mret retval
  else
    Mix_SetError "Music isn't playing";; mret (-1).

Definition Mix_VolumeMusic (volume : Z) : M Z :=
  prev_volume ← gets music_volume;
  if volume <? 0 then mret prev_volume
  else
    let volume := if volume >? SDL_MIX_MAXVOLUME then SDL_MIX_MAXVOLUME else volume in
    modify (set_music_volume volume);;
    mp ← gets music_playing;
    (if mp is Some _ then
       v ← gets music_volume;
       music_internal_volume v
     else mret tt);;
    mret prev_volume.

Definition Mix_HaltMusic : M Z :=
  mp ← gets music_playing;
  (if mp is Some _ then
     music_internal_halt;;
     call_music_finished_hook
   else mret tt);;
  mret 0.

(** Progressively stop the music *)
Definition Mix_FadeOutMusic (ms : Z) : M Z :=
  mps ← gets ms_per_step;
  if mps =? 0 then
    Mix_SetError "Audio device hasn't been opened";; mret 0
  else if ms <=? 0 then  (* just halt immediately. *)
    _ ← Mix_HaltMusic;
    mret 1
  else
    mp ← gets music_playing;
    match mp with
    | Some p =>
        fade_steps' ← div_or_fault (int_sub (int_add ms mps) 1) mps;
        m ← deref p;
        (if decide (fading m = MIX_NO_FADING) then
           store p (set_fade_step 0)
         else
           let old_fade_steps := fade_steps m in
           let step := if decide (fading m = MIX_FADING_OUT) then fade_step m
                       else int_add (int_sub old_fade_steps (fade_step m)) 1 in
           q ← div_or_fault (int_mul step fade_steps') old_fade_steps;
           store p (set_fade_step q));;
        store p (set_fading MIX_FADING_OUT);;
        store p (set_fade_steps fade_steps');;
        mret 1
    | None => mret 0
    end.

Definition Mix_FadingMusic : M Mix_Fading :=
  mp ← gets music_playing;
  match mp with
  | Some p => m ← deref p; mret (fading m)
  | None => mret MIX_NO_FADING
  end.

(** Pause/Resume the music stream *)
Definition Mix_PauseMusic : M unit := modify (set_music_active 0).

Definition Mix_ResumeMusic : M unit := modify (set_music_active 1).

Definition Mix_PausedMusic : M Z :=
  active ← gets music_active;
  mret (if active =? 0 then 1 else 0).

Definition Mix_PlayingMusic : M Z :=
  mp ← gets music_playing;
  if mp is Some _ then
    loops ← gets music_loops;
    (* playing = music_loops || music_internal_playing(); *)
    if negb (loops =? 0) then mret 1
    else
      playing ← music_internal_playing;
      mret (if playing =? 0 then 0 else 1)
  else mret 0.

(** Uninitialize the music players *)
Definition close_music : M unit :=
  _ ← Mix_HaltMusic;
  modify (set_music_decoders []);;
  modify (set_num_decoders 0);;
  modify (set_ms_per_step 0).

(** Initialize the music players with a certain desired audio format.
    [wav_init] is the result of [WAVStream_Init(mixer)] and [step] the value
    of [(int) (((float)mixer->samples * 1000.0) / mixer->freq)]. *)
Definition open_music (wav_init : Z) (realloc_ok : bool) (step : Z) : M Z :=
  (if WAV_MUSIC && (wav_init =? 0) then add_music_decoder realloc_ok "WAVE"
   else mret tt);;
  modify (set_music_playing None);;
  modify (set_music_stopped 0);;
  _ ← Mix_VolumeMusic SDL_MIX_MAXVOLUME;
  modify (set_ms_per_step step);;
  mret 0.

(** ** Well-formed sessions and frames *)

(** [music_playing] is null or points to a live object. *)
Definition playing_valid (st : State) : Prop :=
  match music_playing st with
  | Some p => is_Some (heap st !! p)
  | None => True
  end.

(** The decoder registry counts the names it holds. *)
Definition registry_ok (st : State) : Prop :=
  num_decoders st = Z.of_nat (length (music_decoders st)).

(** The finished-hooks called by [if ( music_finished_hook )
    music_finished_hook();] in state [st]. *)
Definition notified (st : State) : list hook_ptr :=
  match music_finished_hook st with
  | Some h => [h]
  | None => []
  end.

(** A call to play [music] has nothing to wait for: the active track, if it
    is another one, is not fading out. *)
Definition no_fade_out_pending (st : State) (music : ptr) : Prop :=
  forall q mq,
    music_playing st = Some q -> q <> music -> heap st !! q = Some mq ->
    fading mq <> MIX_FADING_OUT.

(** No object of the store changed its format, none appeared or vanished. *)
Definition same_types (st st' : State) : Prop :=
  forall p, type <$> (heap st !! p) = type <$> (heap st' !! p).

(** The loop count is the same. *)
Definition same_loops (st st' : State) : Prop := music_loops st' = music_loops st.

(** Every run of [c] that returns relates the states by [R]. *)
Definition keeps {A : Type} (R : State -> State -> Prop) (c : M A) : Prop :=
  forall st a st', c st = Returns a st' -> R st st'.

(** The active track, if any, is live and of a format with a decoder. *)
Definition active_has_decoder (st : State) : Prop :=
  forall p, music_playing st = Some p ->
            exists m, heap st !! p = Some m /\ has_case (type m) = true.

(** If the active track has a decoder before, it has one after. *)
Definition keeps_decoder (st st' : State) : Prop :=
  active_has_decoder st -> active_has_decoder st'.

(** The calls made on a session: by the application, and by the audio
    thread ([CallMixer], the callback). *)
Inductive call : Type :=
| CallFadeInMusicPos (sched : schedule) (music : option ptr) (loops ms : Z) (position : float)
| CallSetMusicPosition (position : float)
| CallVolumeMusic (volume : Z)
| CallHaltMusic
| CallFadeOutMusic (ms : Z)
| CallPauseMusic
| CallResumeMusic
| CallHookMusicFinished (music_finished : option hook_ptr)
| CallMixer (len : Z)
| CallOpenMusic (wav_init : Z) (realloc_ok : bool) (step : Z)
| CallCloseMusic.

Definition run_call (c : call) : M unit :=
  match c with
  | CallFadeInMusicPos sched music loops ms position =>
      _ ← Mix_FadeInMusicPos sched music loops ms position; mret tt
  | CallSetMusicPosition position => _ ← Mix_SetMusicPosition position; mret tt
  | CallVolumeMusic volume => _ ← Mix_VolumeMusic volume; mret tt
  | CallHaltMusic => _ ← Mix_HaltMusic; mret tt
  | CallFadeOutMusic ms => _ ← Mix_FadeOutMusic ms; mret tt
  | CallPauseMusic => Mix_PauseMusic
  | CallResumeMusic => Mix_ResumeMusic
  | CallHookMusicFinished music_finished => Mix_HookMusicFinished music_finished
  | CallMixer len => music_mixer len
  | CallOpenMusic wav_init realloc_ok step => _ ← open_music wav_init realloc_ok step; mret tt
  | CallCloseMusic => close_music
  end.

(** The sessions reached from [st0] by calls that return. *)
Inductive reachable (st0 : State) : State -> Prop :=
| reachable_start : reachable st0 st0
| reachable_call (st st' : State) (c : call) :
    reachable st0 st -> run_call c st = Returns tt st' -> reachable st0 st'.

(** The decoder state after [music_internal_play] started [m] on an idle
    session: the initial volume is set, then the stream is started. *)
Definition started (st : State) (m : Mix_Music) : W :=
  WAVStream_Start (wave m)
    (WAVStream_SetVolume
       (if decide (fading m = MIX_FADING_IN) then 0 else music_volume st) (wav st)).

(** The fade fields [Mix_FadeInMusicPos] writes before it plays. *)
Definition fade_in_setup (ms steps : Z) (m : Mix_Music) : Mix_Music :=
  set_fade_steps steps
    (set_fade_step 0
       (set_fading (if ms =? 0 then MIX_NO_FADING else MIX_FADING_IN) m)).

End Controller.

Arguments State W : clear implicits.
Arguments outcome W A : clear implicits.
Arguments M W A : clear implicits.
Arguments Returns {W A} a st.
Arguments Faults {W A}.
Arguments Waits {W A}.

(** ** A decoder to run the controller on *)

(** Modelled from the spec: the WAV decoder is not among the sources.  A
    decoder with the capabilities of the dispatch table (start, stop,
    set-volume, is-active, produce-samples): one current stream, played
    from its start up to its end; the stream of handle [w] holds [w] bytes
    of samples. *)
Record wav_player : Type := {
  wp_music : option wave_ptr;
  wp_pos : Z;
  wp_volume : Z
}.

#[global] Instance wav_player_ops : WAVStreamOps wav_player := {|
  WAVStream_Start w p := {| wp_music := Some w; wp_pos := 0; wp_volume := wp_volume p |};
  WAVStream_Stop p := {| wp_music := None; wp_pos := wp_pos p; wp_volume := wp_volume p |};
  WAVStream_SetVolume v p := {| wp_music := wp_music p; wp_pos := wp_pos p; wp_volume := v |};
  WAVStream_Active p :=
    match wp_music p with
    | Some w => if wp_pos p <? Z.of_nat w then 1 else 0
    | None => 0
    end;
  WAVStream_PlaySome len p :=
    match wp_music p with
    | Some w =>
        let stop := Z.of_nat w in
        if wp_pos p <? stop then
          if stop - wp_pos p <? len then
            (len - (stop - wp_pos p),
             {| wp_music := wp_music p; wp_pos := stop; wp_volume := wp_volume p |})
          else
            (0, {| wp_music := wp_music p; wp_pos := wp_pos p + len; wp_volume := wp_volume p |})
        else (0, p)
    | None => (0, p)
    end
|}.

(** The values of the file's initializers, with an empty store. *)
Definition initial_state : State wav_player := {|
  music_active := 1;
  music_stopped := 0;
  music_loops := 0;
  music_playing := None;
  music_volume := MIX_MAX_VOLUME;
  ms_per_step := 0;
  music_decoders := [];
  num_decoders := 0;
  music_finished_hook := None;
  heap := ∅;
  wav := {| wp_music := None; wp_pos := 0; wp_volume := MIX_MAX_VOLUME |};
  SDL_error := "";
  finished_calls := []
|}.

(** A loaded WAV track that is not fading. *)
Definition wav_track (w : wave_ptr) : Mix_Music := {|
  type := MUS_WAV; wave := w; fading := MIX_NO_FADING;
  fade_step := 0; fade_steps := 0; error := 0
|}.

(** The device is open with 10 ms per callback, "WAVE" is registered, and a
    WAV track of 1000 bytes is loaded at address 1; nothing plays. *)
Definition opened_session : State wav_player :=
  set_heap {[ 1%nat := wav_track 1000%nat ]}
    (set_num_decoders 1
       (set_music_decoders ["WAVE"%string]
          (set_ms_per_step 10 initial_state))).

(** The track at address 1 is active with [loops] loops left, a finished-hook
    is registered, and the decoder has played [pos] of the 1000 bytes. *)
Definition playing_session (loops pos : Z) : State wav_player :=
  set_wav {| wp_music := Some 1000%nat; wp_pos := pos; wp_volume := MIX_MAX_VOLUME |}
    (set_music_finished_hook (Some 7%nat)
       (set_music_loops loops
          (set_music_playing (Some 1%nat) opened_session))).

(** The active track is at step [step] of a fade of [steps] steps. *)
Definition fading_session (f : Mix_Fading) (step steps : Z) : State wav_player :=
  set_heap
    {[ 1%nat := set_fade_steps steps (set_fade_step step (set_fading f (wav_track 1000%nat))) ]}
    (playing_session 0 0).

(** ** The detection rules in the specification's words

    The rules of the format detector, read off the 12 bytes at the read
    position: string comparison on the bytes, nibbles and single bits of
    the third and second byte for the MPEG frame-sync heuristic. *)

#[global] Instance byte_eq_decision : EqDecision byte := Byte.byte_eq_dec.

Definition bytes_are (bs : list byte) (s : string) : bool :=
  bool_decide (bs = String.list_byte_of_string s).

Definition nibble_hi (b : byte) : Z := byte_val b / 16.

Definition bit (b : byte) (i : Z) : bool := Z.testbit (byte_val b) i.

Definition mpeg_frame_sync (b0 b1 b2 : byte) : bool :=
  bool_decide (b0 = xff)                           (* first byte 0xFF *)
  && (nibble_hi b1 =? 0xF)                         (* top nibble of the second *)
  && negb (nibble_hi b2 =? 0x0)                    (* bitrate nibble not 0x0 ... *)
  && negb (nibble_hi b2 =? 0xF)                    (* ... nor 0xF *)
  && negb (bit b2 2 && bit b2 3)                   (* sample-rate bits not both set *)
  && negb (negb (bit b1 1) && negb (bit b1 2)).    (* layer bits not both zero *)

Definition spec_detect (prefix : list byte) : Mix_MusicType :=
  let magic := take 4 prefix in
  if (bytes_are magic "RIFF" && bytes_are (take 4 (drop 8 prefix)) "WAVE")
     || bytes_are magic "FORM" then MUS_WAV
  else if bytes_are magic "OggS" then MUS_OGG
  else if bytes_are magic "fLaC" then MUS_FLAC
  else if bytes_are magic "MThd" then MUS_MID
  else if bytes_are (take 3 prefix) "ID3"
          || mpeg_frame_sync (nth 0 prefix x00) (nth 1 prefix x00) (nth 2 prefix x00)
       then MUS_MP3
  else MUS_MOD.

(** ** The fade-out rescaling in the specification's words *)

(** The step count of a fade-out of [ms] milliseconds. *)
Definition fade_out_total (ms step : Z) : Z := Z.quot (ms + step - 1) step.

(** The progress of the fade under way, counted as steps of a fade-out. *)
Definition elapsed_equivalent_steps (m : Mix_Music) : Z :=
  if decide (fading m = MIX_FADING_OUT) then fade_step m
  else fade_steps m - fade_step m + 1.

(** [r] is an integer nearest to the quotient [num / den]. *)
Definition rounds (r num den : Z) : Prop :=
  2 * Z.abs (r * den - num) <= Z.abs den.

(** The bytes a source holds from its read position on. *)
Definition rw_rest (src : SDL_RWops) : list byte :=
  drop (Z.to_nat (rw_here src)) (rw_data src).

(** ** Further operations of music.c *)

(** The characters of a string, without the terminating NUL. *)
Definition str_bytes (s : string) : list Z :=
  byte_val <$> String.list_byte_of_string s.

(** [toupper(c)] of an [unsigned char], in the C locale. *)
Definition toupper (c : Z) : Z :=
  if (97 <=? c) && (c <=? 122) then c - 32 else c.

(** Portable case-insensitive string compare function *)
Fixpoint MIX_string_equals (str1 str2 : list Z) : Z :=
  let result := if (char_at str1 0 =? 0) && (char_at str2 0 =? 0) then 1 else 0 in
  match str1 with
  | c1 :: str1' =>
      if negb (c1 =? 0) && negb (char_at str2 0 =? 0) then
        if negb (toupper c1 =? toupper (char_at str2 0)) then result
        else MIX_string_equals str1' (tail str2)
      else result
  | [] => result
  end.

(** [strrchr(s, c)]: the rest of [s] from the last [c] on, [None] for NULL. *)
Fixpoint strrchr (s : list Z) (c : Z) : option (list Z) :=
  match s with
  | [] => None
  | x :: s' =>
      if x =? 0 then (if c =? 0 then Some s else None)
      else
        match strrchr s' c with
        | Some r => Some r
        | None => if x =? c then Some s else None
        end
  end.

Definition set_type (t : Mix_MusicType) (m : Mix_Music) : Mix_Music :=
  {| type := t; wave := wave m; fading := fading m;
     fade_step := fade_step m; fade_steps := fade_steps m; error := error m |}.

Definition set_wave (w : wave_ptr) (m : Mix_Music) : Mix_Music :=
  {| type := type m; wave := w; fading := fading m;
     fade_step := fade_step m; fade_steps := fade_steps m; error := error m |}.

Definition set_error (e : Z) (m : Mix_Music) : Mix_Music :=
  {| type := type m; wave := wave m; fading := fading m;
     fade_step := fade_step m; fade_steps := fade_steps m; error := e |}.

(** The loader of the WAV decoder (wavestream.h), which is not among the
    sources.  [WAVStream_LoadSong_RW(src, freesrc)] returns the handle of
    the stream, 0 for NULL, with what became of the source: still open, at
    some position, or closed ([None]). *)
Class WAVStreamLoader (W : Type) : Type := {
  WAVStream_LoadSong_RW : SDL_RWops -> Z -> W -> wave_ptr * option SDL_RWops * W;
  WAVStream_FreeSong : wave_ptr -> W -> W
}.

Section Operations.

Context {W : Type} {wav_ops : WAVStreamOps W} {wav_loader : WAVStreamLoader W}.

Variable WAV_MUSIC : bool.

(** A source handed around is open, or was closed ([None]).
    Modelled from the spec: [SDL_RWclose(src)]; closing a source twice is a
    use of a dangling pointer. *)
Definition SDL_RWclose (src : option SDL_RWops) : M W (option SDL_RWops) :=
  match src with
  | Some _ => mret None
  | None => fault
  end.

(** [SDL_RWseek(src, start, RW_SEEK_SET)] on a source handed around. *)
Definition SDL_RWseek_to (src : option SDL_RWops) (start : Z) : M W (option SDL_RWops) :=
  match src with
  | Some src => mret (Some (snd (SDL_RWseek_SET src start)))
  | None => fault
  end.

(** [SDL_malloc(sizeof(Mix_Music))]: [addr] is the address returned, [None]
    for NULL; the new object has indeterminate contents [junk]. *)
Definition SDL_malloc (addr : option ptr) (junk : Mix_Music) : M W (option ptr) :=
  match addr with
  | Some p => modify (fun st => set_heap (<[p := junk]> (heap st)) st);; mret (Some p)
  | None => mret None
  end.

(** [SDL_free(p)]; freeing what is not live faults. *)
Definition SDL_free (p : ptr) : M W unit :=
  _ ← deref p;
  modify (fun st => set_heap (delete p (heap st)) st).

(** [WAVStream_LoadSong_RW(src, freesrc)] *)
Definition wav_load_song (src : SDL_RWops) (freesrc : Z)
    : M W (wave_ptr * option SDL_RWops) := fun st =>
  let r := WAVStream_LoadSong_RW src freesrc (wav st) in
  Returns (fst r) (set_wav (snd r) st).

(** [src] is a [SDL_RWops *]: [None] is NULL.  The result is the
    [Mix_Music *] returned, with what became of the source. *)
Definition Mix_LoadMUSType_RW (addr : option ptr) (junk : Mix_Music)
    (src : option SDL_RWops) (type : Mix_MusicType) (freesrc : Z)
    : M W (option ptr * option SDL_RWops) :=
  match src with
  | None => Mix_SetError "RWops pointer is NULL";; mret (None, None)
  | Some src =>
      let start := SDL_RWtell src in
      let load (type : Mix_MusicType) (src : SDL_RWops) :=
        (* Allocate memory for the music structure *)
        music ← SDL_malloc addr junk;
        match music with
        | None =>
            Mix_SetError "Out of memory";;
            src ← (if negb (freesrc =? 0) then SDL_RWclose (Some src)
                   else mret (Some src));
            mret (None, src)
        | Some music =>
            store music (set_error 1);;
            src ← (if has_case WAV_MUSIC type then
                     store music (set_type MUS_WAV);;
                     r ← wav_load_song src freesrc;
                     store music (set_wave (fst r));;
                     (if negb (fst r =? 0)%nat then store music (set_error 0)
                      else mret tt);;
                     mret (snd r)
                   else
                     Mix_SetError "Unrecognized music format";;
                     mret (Some src));
            m ← deref music;
            if negb (error m =? 0) then
              SDL_free music;;
              src ← (if negb (freesrc =? 0) then SDL_RWclose src
                     else SDL_RWseek_to src start);
              mret (None, src)
            else mret (Some music, src)
        end in
      (* If the caller wants auto-detection, figure out what kind of file
         this is. *)
      if decide (type = MUS_NONE) then
        r ← detect_music_type src;
        if decide (fst r = MUS_NONE) then
          (* Don't call Mix_SetError() here since detect_music_type()
             does that. *)
          src ← (if negb (freesrc =? 0) then SDL_RWclose (Some (snd r))
                 else mret (Some (snd r)));
          mret (None, src)
        else load (fst r) (snd r)
      else load type src
  end.

Definition Mix_LoadMUS_RW (addr : option ptr) (junk : Mix_Music)
    (src : option SDL_RWops) (freesrc : Z) : M W (option ptr * option SDL_RWops) :=
  Mix_LoadMUSType_RW addr junk src MUS_NONE freesrc.

(** Load a music file.  [SDL_RWFromFile file] is the source
    [SDL_RWFromFile(file, "rb")] opens, [None] for NULL. *)
Definition Mix_LoadMUS (SDL_RWFromFile : string -> option SDL_RWops)
    (addr : option ptr) (junk : Mix_Music) (file : string) : M W (option ptr) :=
  match SDL_RWFromFile file with
  | None =>
      Mix_SetError ("Couldn't open '" ++ file ++ "'");;
      mret None
  | Some src =>
      (* Use the extension as a first guess on the file type *)
      let eq (ext : list Z) (name : string) : bool :=
        negb (MIX_string_equals ext (c_str name) =? 0) in
      let type :=
        match strrchr (c_str file) 46 with
        | Some ext =>
            let ext := tail ext in  (* skip the dot in the extension *)
            if eq ext "WAV" then MUS_WAV
            else if eq ext "MID" || eq ext "MIDI" || eq ext "KAR" then MUS_MID
            else if eq ext "OGG" then MUS_OGG
            else if eq ext "FLAC" then MUS_FLAC
            else if eq ext "MPG" || eq ext "MPEG" || eq ext "MP3" || eq ext "MAD"
            then MUS_MP3
            else MUS_NONE
        | None => MUS_NONE
        end in
      r ← (if decide (type = MUS_NONE) then detect_music_type src
           else mret (type, src));
      (* We need to know if a specific error occurs; if not, we'll set a
         generic one, so we clear the current one. *)
      Mix_SetError EmptyString;;
      music ← Mix_LoadMUSType_RW addr junk (Some (snd r)) (fst r) 1;
      err ← gets SDL_error;
      (if (if fst music is None then true else false)
          && (if err is EmptyString then true else false)
       then Mix_SetError "Unrecognized music format"
       else mret tt);;
      mret (fst music)
  end.

(** The store and the active track are the same. *)
Definition same_tracks (st st' : State W) : Prop :=
  heap st' = heap st /\ music_playing st' = music_playing st.

(** The object a successful load leaves at the new address: a WAV track
    whose fade fields are the indeterminate ones of the new object. *)
Definition loaded (w : wave_ptr) (junk : Mix_Music) : Mix_Music :=
  set_error 0 (set_wave w (set_type MUS_WAV (set_error 1 junk))).

(** [while ( music->fading == MIX_FADING_OUT )
       { SDL_UnlockAudio(); SDL_Delay(100); SDL_LockAudio(); }] *)
Fixpoint wait_for_fading (music : ptr) (sched : schedule) : M W unit :=
  m ← deref music;
  if decide (fading m = MIX_FADING_OUT) then
    match sched with
    | [] => waits
    | lens :: sched' => run_callbacks WAV_MUSIC lens;; wait_for_fading music sched'
    end
  else mret tt.

(** Free a music chunk previously loaded *)
Definition Mix_FreeMusic (sched : schedule) (music : option ptr) : M W unit :=
  match music with
  | Some music =>
      (* Stop the music if it's currently playing *)
      mp ← gets music_playing;
      (if decide (mp = Some music) then
         (* Wait for any fade out to finish *)
         wait_for_fading music sched;;
         mp ← gets music_playing;
         if decide (mp = Some music) then music_internal_halt WAV_MUSIC
         else mret tt
       else mret tt);;
      m ← deref music;
      (if has_case WAV_MUSIC (type m) then wav_call (WAVStream_FreeSong (wave m))
       else mret tt);;
      SDL_free music
  | None => mret tt
  end.

Definition Mix_RewindMusic : M W unit :=
  _ ← Mix_SetMusicPosition 0;
  mret tt.

(** Find out the music format of a mixer music, or the currently playing
    music, if 'music' is NULL. *)
Definition Mix_GetMusicType (music : option ptr) : M W Mix_MusicType :=
  match music with
  | Some p => m ← deref p; mret (type m)
  | None =>
      mp ← gets music_playing;
      match mp with
      | Some p => m ← deref p; mret (type m)
      | None => mret MUS_NONE
      end
  end.

(** The hooks called so far and the registered hook are the same. *)
Definition same_calls (st st' : State W) : Prop :=
  finished_calls st' = finished_calls st /\
  music_finished_hook st' = music_finished_hook st.

End Operations.

(** Modelled from the spec: the loader of the WAV decoder is not among the
    sources.  A loader for [wav_player]: a source whose next four bytes are
    "RIFF" becomes a stream whose handle is the number of bytes the source
    holds, and the source stays open, read to its end; any other source is
    refused, and closed if it was given away. *)
#[global] Instance wav_player_loader : WAVStreamLoader wav_player := {|
  WAVStream_LoadSong_RW src freesrc p :=
    if bool_decide (take 4 (rw_rest src) = String.list_byte_of_string "RIFF") then
      (length (rw_data src),
       Some {| rw_data := rw_data src; rw_here := rw_size src |}, p)
    else (0%nat, if freesrc =? 0 then Some src else None, p);
  WAVStream_FreeSong w p :=
    if bool_decide (wp_music p = Some w) then
      {| wp_music := None; wp_pos := wp_pos p; wp_volume := wp_volume p |}
    else p
|}.

(** A source of 16 bytes that starts a RIFF/WAVE file, at its start. *)
Definition riff_source : SDL_RWops :=
  {| rw_data := String.list_byte_of_string "RIFF$000WAVEfmt "; rw_here := 0 |}.

(** The paused session of two tracks: the active one, at address 1, is at
    step [step] of a fade-out of 3 steps; the other is at address 2. *)
Definition paused_fading_session (step : Z) : State wav_player :=
  set_music_active 0
    (set_heap (<[2%nat := wav_track 500%nat]> (heap (fading_session MIX_FADING_OUT step 3)))
       (fading_session MIX_FADING_OUT step 3)).

(** * Properties *)

(** ** C strings *)

Lemma byte_val_inj (b c : byte) : byte_val b = byte_val c -> b = c.
Proof.
  unfold byte_val. intros H. apply N2Z.inj in H.
  pose proof (Byte.of_to_N b) as Hb. pose proof (Byte.of_to_N c) as Hc.
  rewrite H in Hb. congruence.
Qed.

Lemma byte_val_range (b : byte) : 0 <= byte_val b < 256.
Proof.
  unfold byte_val. pose proof (Byte.to_N_bounded b). lia.
Qed.

Lemma byte_vals_inj (bs cs : list byte) :
  byte_val <$> bs = byte_val <$> cs -> bs = cs.
Proof.
  revert cs. induction bs as [|b bs IH]; intros [|c cs] H; simplify_eq/=; auto.
  f_equal; auto using byte_val_inj.
Qed.

(** Comparing two buffers that agree in length on a prefix free of NUL:
    the result is 0 exactly when the prefixes are equal and the rests
    compare equal. *)
Lemma strncmp_app (l1 l2 t1 t2 : list Z) (n : nat) :
  length l1 = length l2 ->
  Forall (fun c => c <> 0) l2 ->
  strncmp (l1 ++ t1) (l2 ++ t2) (length l1 + n) = 0 <->
  l1 = l2 /\ strncmp t1 t2 n = 0.
Proof.
  revert l2. induction l1 as [|c1 l1 IH]; intros [|c2 l2] Hlen Hnz; simplify_eq/=.
  - tauto.
  - apply Forall_cons in Hnz as [Hc2 Hnz]. unfold char_at; simpl.
    destruct (Z.eqb_spec c1 c2) as [->|Hne].
    + destruct (Z.eqb_spec c2 0) as [?|_]; [contradiction|].
      rewrite IH by assumption. split; intros [? ?]; split; congruence.
    + split; [lia|]. intros [? _]. congruence.
Qed.

Lemma strcmp_literal (bs cs : list byte) (t : list Z) :
  length bs = length cs ->
  Forall (fun c => c <> x00) cs ->
  (strcmp ((byte_val <$> bs) ++ 0 :: t) ((byte_val <$> cs) ++ [0]) =? 0)
  = bool_decide (bs = cs).
Proof.
  intros Hlen Hnz. unfold strcmp.
  replace (length ((byte_val <$> bs) ++ 0 :: t))
    with (length (byte_val <$> bs) + S (length t))%nat
    by (rewrite length_app; reflexivity).
  assert (Hnz' : Forall (fun c => c <> 0) (byte_val <$> cs)).
  { apply Forall_fmap. eapply Forall_impl; [exact Hnz|].
    intros c Hc Hv. apply Hc. apply byte_val_inj. exact Hv. }
  pose proof (strncmp_app (byte_val <$> bs) (byte_val <$> cs) (0 :: t) [0]
                (S (length t)) ltac:(rewrite !length_fmap; exact Hlen) Hnz') as Hiff.
  case_bool_decide as Heq.
  - apply Z.eqb_eq, Hiff. split; [congruence | reflexivity].
  - apply Z.eqb_neq. intros H0. apply Hiff in H0 as [H0 _].
    apply Heq, byte_vals_inj, H0.
Qed.

Lemma strncmp_literal (bs cs : list byte) (t : list Z) :
  length bs = length cs ->
  Forall (fun c => c <> x00) cs ->
  (strncmp ((byte_val <$> bs) ++ t) ((byte_val <$> cs) ++ [0]) (length bs) =? 0)
  = bool_decide (bs = cs).
Proof.
  intros Hlen Hnz.
  assert (Hnz' : Forall (fun c => c <> 0) (byte_val <$> cs)).
  { apply Forall_fmap. eapply Forall_impl; [exact Hnz|].
    intros c Hc Hv. apply Hc. apply byte_val_inj. exact Hv. }
  pose proof (strncmp_app (byte_val <$> bs) (byte_val <$> cs) t [0]
                0 ltac:(rewrite !length_fmap; exact Hlen) Hnz') as Hiff.
  rewrite length_fmap, Nat.add_0_r in Hiff.
  case_bool_decide as Heq.
  - apply Z.eqb_eq, Hiff. split; [congruence | reflexivity].
  - apply Z.eqb_neq. intros H0. apply Hiff in H0 as [H0 _].
    apply Heq, byte_vals_inj, H0.
Qed.

Lemma MIX_string_equals_eq (l1 l2 : list Z) :
  Forall (fun c => c <> 0) l1 ->
  Forall (fun c => c <> 0) l2 ->
  MIX_string_equals (l1 ++ [0]) (l2 ++ [0]) =
    if decide (toupper <$> l1 = toupper <$> l2) then 1 else 0.
Proof.
  revert l2. induction l1 as [|c1 l1 IH]; intros [|c2 l2] H1 H2;
    try apply Forall_cons in H1 as [Hc1 H1];
    try apply Forall_cons in H2 as [Hc2 H2];
    cbn [app MIX_string_equals char_at nth tail fmap list_fmap].
  - reflexivity.
  - change (0 =? 0) with true. cbn [negb andb].
    destruct (Z.eqb_spec c2 0) as [?|_]; [contradiction|].
    destruct (decide _) as [?|_]; [discriminate|reflexivity].
  - destruct (Z.eqb_spec c1 0) as [?|_]; [contradiction|].
    change (0 =? 0) with true. cbn [negb andb].
    destruct (decide _) as [?|_]; [discriminate|reflexivity].
  - destruct (Z.eqb_spec c1 0) as [?|_]; [contradiction|].
    destruct (Z.eqb_spec c2 0) as [?|_]; [contradiction|].
    cbn [negb andb].
    destruct (Z.eqb_spec (toupper c1) (toupper c2)) as [Heq|Hne]; cbn [negb].
    + rewrite (IH l2 H1 H2).
      destruct (decide (toupper <$> l1 = toupper <$> l2)) as [Hl|Hl];
        destruct (decide _) as [Hl'|Hl']; try reflexivity.
      * exfalso. apply Hl'. f_equal; assumption.
      * exfalso. apply Hl. injection Hl'. auto.
    + destruct (decide _) as [Hl'|_]; [|reflexivity].
      exfalso. apply Hne. injection Hl'. auto.
Qed.

(** X16.  [MIX_string_equals] compares two C strings without regard to the
    case of ASCII letters: it returns 1 when the strings are equal after
    [toupper] of every character, and 0 otherwise (also when one string is
    a proper prefix of the other); so it is symmetric. *)
Theorem MIX_string_equals_iff (l1 l2 : list Z) :
  Forall (fun c => c <> 0) l1 ->
  Forall (fun c => c <> 0) l2 ->
  (MIX_string_equals (l1 ++ [0]) (l2 ++ [0]) = 1 <-> toupper <$> l1 = toupper <$> l2) /\
  (MIX_string_equals (l1 ++ [0]) (l2 ++ [0]) = 0 <-> toupper <$> l1 <> toupper <$> l2) /\
  MIX_string_equals (l1 ++ [0]) (l2 ++ [0]) = MIX_string_equals (l2 ++ [0]) (l1 ++ [0]).
Proof.
  intros H1 H2.
  rewrite (MIX_string_equals_eq l1 l2 H1 H2), (MIX_string_equals_eq l2 l1 H2 H1).
  destruct (decide (toupper <$> l1 = toupper <$> l2)) as [Heq|Hne].
  - rewrite decide_True by congruence. intuition discriminate.
  - rewrite decide_False by congruence. intuition discriminate.
Qed.




(** ** Format detection *)

Lemma land_ff (b : byte) :
  (Z.land (byte_val b) 0xff =? 0xff) = bool_decide (b = xff).
Proof. destruct b; reflexivity. Qed.

Lemma land_f0_set (b : byte) :
  (Z.land (byte_val b) 0xf0 =? 0xf0) = (nibble_hi b =? 0xF).
Proof. destruct b; reflexivity. Qed.

Lemma land_f0_clear (b : byte) :
  (Z.land (byte_val b) 0xf0 =? 0x00) = (nibble_hi b =? 0x0).
Proof. destruct b; reflexivity. Qed.

Lemma land_0c (b : byte) :
  (Z.land (byte_val b) 0x0c =? 0x0c) = (bit b 2 && bit b 3).
Proof. destruct b; reflexivity. Qed.

Lemma land_06 (b : byte) :
  (Z.land (byte_val b) 0x06 =? 0x00) = (negb (bit b 1) && negb (bit b 2)).
Proof. destruct b; reflexivity. Qed.

Lemma SDL_RWread_full (src : SDL_RWops) (n : Z) :
  0 <= rw_here src -> 0 <= n -> rw_here src + n <= rw_size src ->
  SDL_RWread src n =
    (n, byte_val <$> take (Z.to_nat n) (rw_rest src),
     {| rw_data := rw_data src; rw_here := rw_here src + n |}).
Proof.
  intros Hhere Hn Hsize. unfold SDL_RWread, rw_rest.
  destruct (Z.ltb_spec (rw_size src - rw_here src) n) as [Hlt|_]; [lia|].
  rewrite Z.max_r by lia. reflexivity.
Qed.

Lemma rw_rest_length (src : SDL_RWops) :
  0 <= rw_here src ->
  Z.of_nat (length (rw_rest src)) = Z.max 0 (rw_size src - rw_here src).
Proof.
  intros Hhere. unfold rw_rest, rw_size. rewrite length_drop. lia.
Qed.

Lemma rw_rest_advance (src : SDL_RWops) (n : Z) :
  0 <= rw_here src -> 0 <= n ->
  rw_rest {| rw_data := rw_data src; rw_here := rw_here src + n |}
  = drop (Z.to_nat n) (rw_rest src).
Proof.
  intros Hhere Hn. unfold rw_rest; simpl.
  rewrite drop_drop. f_equal. lia.
Qed.

Lemma SDL_RWseek_SET_back (src : SDL_RWops) (n : Z) :
  0 <= rw_here src -> 0 <= n -> rw_here src <= rw_size src ->
  snd (SDL_RWseek_SET {| rw_data := rw_data src; rw_here := n |} (rw_here src)) = src.
Proof.
  intros Hhere Hn Hsize. unfold SDL_RWseek_SET, rw_size in *; simpl.
  destruct (Z.ltb_spec (rw_here src) 0); [lia|].
  destruct (Z.ltb_spec (Z.of_nat (length (rw_data src))) (rw_here src)); [lia|].
  destruct src; reflexivity.
Qed.

Lemma strcmp_magic (b0 b1 b2 b3 : byte) (t : list Z) (s : string) :
  length (String.list_byte_of_string s) = 4%nat ->
  Forall (fun c => c <> x00) (String.list_byte_of_string s) ->
  (strcmp (byte_val b0 :: byte_val b1 :: byte_val b2 :: byte_val b3 :: 0 :: t) (c_str s) =? 0)
  = bytes_are [b0; b1; b2; b3] s.
Proof.
  intros Hlen Hnz. unfold bytes_are, c_str.
  rewrite <- (strcmp_literal [b0; b1; b2; b3] _ t) by (auto using eq_sym).
  reflexivity.
Qed.

Lemma detect_mp3_rules (b0 b1 b2 b3 : byte) (t : list Z) :
  negb (detect_mp3 (byte_val b0 :: byte_val b1 :: byte_val b2 :: byte_val b3 :: t) =? 0)
  = bytes_are [b0; b1; b2] "ID3" || mpeg_frame_sync b0 b1 b2.
Proof.
  unfold detect_mp3, mpeg_frame_sync, bytes_are.
  change (byte_val b0 :: byte_val b1 :: byte_val b2 :: byte_val b3 :: t)
    with ((byte_val <$> [b0; b1; b2]) ++ byte_val b3 :: t).
  change (strncmp ((byte_val <$> [b0; b1; b2]) ++ byte_val b3 :: t) (c_str "ID3") 3)
    with (strncmp ((byte_val <$> [b0; b1; b2]) ++ byte_val b3 :: t)
            ((byte_val <$> String.list_byte_of_string "ID3") ++ [0]) (length [b0; b1; b2])).
  rewrite strncmp_literal by (try reflexivity; repeat constructor; discriminate).
  case_bool_decide; [reflexivity|].
  change (char_at ((byte_val <$> [b0; b1; b2]) ++ byte_val b3 :: t) 0) with (byte_val b0).
  change (char_at ((byte_val <$> [b0; b1; b2]) ++ byte_val b3 :: t) 1) with (byte_val b1).
  change (char_at ((byte_val <$> [b0; b1; b2]) ++ byte_val b3 :: t) 2) with (byte_val b2).
  rewrite land_ff, land_f0_set, land_f0_clear, land_0c, land_06.
  rewrite (land_f0_set b2).
  destruct (bool_decide (b0 = xff)), (nibble_hi b1 =? 0xF), (nibble_hi b2 =? 0x0),
    (nibble_hi b2 =? 0xF), (bit b2 2 && bit b2 3), (negb (bit b1 1) && negb (bit b1 2));
    reflexivity.
Qed.

(** With 12 bytes left to read, detection follows the rules of the
    specification, sets no error, and hands the source back as it was. *)
Lemma detect_music_type_spec {W : Type} (src : SDL_RWops) (st : State W) :
  0 <= rw_here src ->
  (12 <= length (rw_rest src))%nat ->
  detect_music_type src st = Returns (spec_detect (take 12 (rw_rest src)), src) st.
Proof.
  intros Hhere Hlen.
  pose proof (rw_rest_length src Hhere) as Hrest.
  assert (Hsize : rw_here src + 12 <= rw_size src) by lia.
  unfold detect_music_type.
  rewrite (SDL_RWread_full src 4) by lia.
  cbv beta iota zeta.
  change (4 =? 4) with true. cbv beta iota.
  rewrite (SDL_RWread_full {| rw_data := rw_data src; rw_here := rw_here src + 4 |} 8)
    by (simpl; unfold rw_size in *; simpl; lia).
  cbv beta iota zeta.
  change (8 =? 8) with true. cbv beta iota.
  rewrite (rw_rest_advance src 4) by lia.
  unfold SDL_RWtell.
  rewrite (SDL_RWseek_SET_back src) by (simpl; lia).
  destruct (rw_rest src) as [|b0 [|b1 [|b2 [|b3 [|b4 [|b5 [|b6 [|b7 [|b8 [|b9 [|b10 [|b11 rest]]]]]]]]]]]];
    simpl in Hlen; try lia.
  clear Hrest Hsize Hlen.
  unfold spec_detect.
  cbn [negb].
  set (l := b0 :: b1 :: b2 :: b3 :: b4 :: b5 :: b6 :: b7 :: b8 :: b9 :: b10 :: b11 :: rest).
  change (<[4%nat:=0]> (fill (byte_val <$> take (Z.to_nat 4) l) 5))
    with [byte_val b0; byte_val b1; byte_val b2; byte_val b3; 0].
  change (drop 4 (<[8%nat:=0]> (fill (byte_val <$> take (Z.to_nat 8) (drop (Z.to_nat 4) l)) 9)))
    with [byte_val b8; byte_val b9; byte_val b10; byte_val b11; 0].
  change (take 4 (take 12 l)) with [b0; b1; b2; b3].
  change (take 4 (drop 8 (take 12 l))) with [b8; b9; b10; b11].
  change (take 3 (take 12 l)) with [b0; b1; b2].
  change (nth 0 (take 12 l) x00) with b0.
  change (nth 1 (take 12 l) x00) with b1.
  change (nth 2 (take 12 l) x00) with b2.
  rewrite !strcmp_magic by (try reflexivity; repeat constructor; discriminate).
  rewrite detect_mp3_rules.
  repeat match goal with
         | |- context [if ?b then _ else _] => destruct b
         end; reflexivity.
Qed.

(** C4.  On a source with the 12 bytes [prefix] at its read position,
    detection returns the tag the rules of the specification give for
    [prefix], in their order (RIFF with WAVE at offset 8, or FORM: WAV;
    OggS: OGG; fLaC: FLAC; MThd: MIDI; ID3 or the MPEG frame-sync
    heuristic: MP3; anything else: MOD); it sets no error and hands the
    source back as it was. *)
Theorem detect_music_type_rules {W : Type} (before prefix after : list byte) (st : State W) :
  length prefix = 12%nat ->
  detect_music_type
    {| rw_data := before ++ prefix ++ after; rw_here := Z.of_nat (length before) |} st
  = Returns
      (spec_detect prefix,
       {| rw_data := before ++ prefix ++ after; rw_here := Z.of_nat (length before) |})
      st.
Proof.
  intros Hlen.
  set (src := {| rw_data := before ++ prefix ++ after; rw_here := Z.of_nat (length before) |}).
  assert (Hrest : rw_rest src = prefix ++ after).
  { unfold rw_rest, src. simpl. rewrite Nat2Z.id. apply drop_app_length. }
  rewrite (detect_music_type_spec src st).
  - rewrite Hrest, take_app_length' by (symmetry; exact Hlen). reflexivity.
  - simpl. lia.
  - rewrite Hrest, length_app. lia.
Qed.

(** Where at least 12 bytes remain, the read position after detection is
    the read position before it. *)
Theorem detect_music_type_restores_position {W : Type} (src : SDL_RWops) (st : State W) :
  0 <= rw_here src ->
  (12 <= length (rw_rest src))%nat ->
  exists t src' st',
    detect_music_type src st = Returns (t, src') st' /\
    SDL_RWtell src' = SDL_RWtell src.
Proof.
  intros Hhere Hlen. rewrite (detect_music_type_spec src st Hhere Hlen). eauto.
Qed.

(** Where fewer than 12 bytes remain (but at least one), one of the two
    reads is short: detection returns MUS_NONE with the error set, and the
    read position stays at the end of the data. *)
Lemma detect_music_type_short_read {W : Type} (src : SDL_RWops) (st : State W) :
  0 <= rw_here src ->
  rw_here src < rw_size src < rw_here src + 12 ->
  exists src',
    detect_music_type src st =
      Returns (MUS_NONE, src') (set_SDL_error "Couldn't read from RWops" st) /\
    SDL_RWtell src' = rw_size src /\
    SDL_RWtell src' <> SDL_RWtell src.
Proof.
  intros Hhere Hsize. unfold detect_music_type.
  destruct (Z.lt_ge_cases (rw_size src) (rw_here src + 4)) as [Hfirst|Hfirst].
  - unfold SDL_RWread.
    destruct (Z.ltb_spec (rw_size src - rw_here src) 4) as [_|?]; [|lia].
    rewrite Z.max_r by lia. cbv beta iota zeta.
    destruct (Z.eqb_spec (rw_size src - rw_here src) 4) as [?|_]; [lia|].
    cbn [negb]. eexists. split; [reflexivity|].
    unfold SDL_RWtell. simpl. lia.
  - rewrite (SDL_RWread_full src 4) by lia.
    cbv beta iota zeta. change (4 =? 4) with true. cbn [negb].
    unfold SDL_RWread, rw_size in *. simpl.
    destruct (Z.ltb_spec (Z.of_nat (length (rw_data src)) - (rw_here src + 4)) 8) as [_|?];
      [|lia].
    rewrite Z.max_r by lia. cbv beta iota zeta.
    destruct (Z.eqb_spec (Z.of_nat (length (rw_data src)) - (rw_here src + 4)) 8) as [?|_];
      [lia|].
    cbn [negb]. eexists. split; [reflexivity|].
    unfold SDL_RWtell. simpl. lia.
Qed.

(** ** The playback controller *)

Section ControllerFacts.

Context {W : Type} {wav_ops : WAVStreamOps W}.

Variable WAV_MUSIC : bool.

Ltac unfold_M :=
  unfold call_music_finished_hook, div_or_fault, wav_call, Mix_SetError,
    playing_ptr, deref, store, gets, modify, fault, waits,
    mbind, M_bind, mret, M_ret in *.

(** Projections of updated states and objects. *)
Ltac state_simpl :=
  cbn [music_active music_stopped music_loops music_playing music_volume ms_per_step
       music_decoders num_decoders music_finished_hook heap wav SDL_error
       finished_calls set_music_active set_music_stopped set_music_loops
       set_music_playing set_music_volume set_ms_per_step set_music_decoders
       set_num_decoders set_music_finished_hook set_heap set_wav set_SDL_error
       set_finished_calls type wave fading fade_step fade_steps error set_fading
       set_fade_step set_fade_steps] in *.

(** One step of evaluation: reduce what is determined, keep lookups, tests
    on unknown numbers and arithmetic as they are. *)
Ltac run_simpl :=
  cbn -[lookup insert Z.eqb Z.ltb Z.leb Z.gtb Z.geb Z.add Z.sub Z.mul Z.quot
        PrimFloat.ltb int_add int_sub int_mul int_div
        Mix_Fading_eq_dec Mix_MusicType_eq_dec] in *;
  change (0 =? 0) with true in *;
  change (-1 =? 0) with false in *;
  change (-1 <? 0) with true in *;
  change (0 <? 0) with false in *;
  cbv beta iota in *.

(** *** Frames *)

Section Keeps.

Variable R : State W -> State W -> Prop.
Hypothesis R_refl : forall st, R st st.
Hypothesis R_trans : forall st1 st2 st3, R st1 st2 -> R st2 st3 -> R st1 st3.

Lemma keeps_ret {A : Type} (a : A) : keeps R (mret a).
Proof. intros st a' st' H. unfold_M. simplify_eq. apply R_refl. Qed.

Lemma keeps_bind {A B : Type} (c : M W A) (k : A -> M W B) :
  keeps R c -> (forall a, keeps R (k a)) -> keeps R (c ≫= k).
Proof.
  intros Hc Hk st b st' H. unfold_M.
  destruct (c st) as [a st1| |] eqn:Hcst; try discriminate.
  eapply R_trans; [eapply Hc, Hcst | eapply Hk, H].
Qed.

Lemma keeps_gets {A : Type} (f : State W -> A) : keeps R (gets f).
Proof. intros st a st' H. unfold_M. simplify_eq. apply R_refl. Qed.

Lemma keeps_fault {A : Type} : keeps R (@fault W A).
Proof. intros st a st' H. discriminate. Qed.

Lemma keeps_waits {A : Type} : keeps R (@waits W A).
Proof. intros st a st' H. discriminate. Qed.

Lemma keeps_deref (p : ptr) : keeps R (deref p).
Proof.
  intros st a st' H. unfold_M. destruct (heap st !! p); simplify_eq. apply R_refl.
Qed.

Lemma keeps_playing_ptr : keeps R playing_ptr.
Proof.
  intros st a st' H. unfold_M. destruct (music_playing st); simplify_eq. apply R_refl.
Qed.

Lemma keeps_div_or_fault (a b : Z) : keeps R (div_or_fault a b).
Proof.
  intros st q st' H. unfold_M. destruct (int_div a b); simplify_eq. apply R_refl.
Qed.

Lemma keeps_modify (f : State W -> State W) :
  (forall st, R st (f st)) -> keeps R (modify f).
Proof. intros Hf st a st' H. unfold_M. simplify_eq. apply Hf. Qed.

Lemma keeps_store (p : ptr) (f : Mix_Music -> Mix_Music) :
  (forall st m, heap st !! p = Some m -> R st (set_heap (<[p := f m]> (heap st)) st)) ->
  keeps R (store p f).
Proof.
  intros Hf st a st' H. unfold_M.
  destruct (heap st !! p) as [m|] eqn:Hm; simplify_eq. apply Hf, Hm.
Qed.

End Keeps.

Ltac keeps_step refl trans :=
  lazymatch goal with
  | |- keeps _ (_ ≫= _) => apply (keeps_bind _ trans); [ | intros ?]
  | |- keeps _ (mret _) => apply (keeps_ret _ refl)
  | |- keeps _ (gets _) => apply (keeps_gets _ refl)
  | |- keeps _ fault => apply keeps_fault
  | |- keeps _ waits => apply keeps_waits
  | |- keeps _ (deref _) => apply (keeps_deref _ refl)
  | |- keeps _ playing_ptr => apply (keeps_playing_ptr _ refl)
  | |- keeps _ (div_or_fault _ _) => apply (keeps_div_or_fault _ refl)
  | |- keeps _ (if ?b then _ else _) => destruct b
  | |- keeps _ (match ?x with _ => _ end) => destruct x
  end.

(** *** Formats are immutable *)

Lemma same_types_refl (st : State W) : same_types st st.
Proof. intros p. reflexivity. Qed.

Lemma same_types_trans (st1 st2 st3 : State W) :
  same_types st1 st2 -> same_types st2 st3 -> same_types st1 st3.
Proof. intros H12 H23 p. rewrite H12. apply H23. Qed.

Lemma same_types_heap (st st' : State W) :
  heap st' = heap st -> same_types st st'.
Proof. intros H p. rewrite H. reflexivity. Qed.

Lemma same_types_store (st : State W) (p : ptr) (f : Mix_Music -> Mix_Music) (m : Mix_Music) :
  type (f m) = type m ->
  heap st !! p = Some m ->
  same_types st (set_heap (<[p := f m]> (heap st)) st).
Proof.
  intros Hf Hm q. simpl. destruct (decide (p = q)) as [->|Hne].
  - rewrite lookup_insert_eq, Hm. simpl. congruence.
  - rewrite lookup_insert_ne by assumption. reflexivity.
Qed.

Lemma same_types_lookup (st st' : State W) (p : ptr) (m : Mix_Music) :
  same_types st st' ->
  heap st !! p = Some m ->
  exists m', heap st' !! p = Some m' /\ type m' = type m.
Proof.
  intros H Hm. specialize (H p). rewrite Hm in H. simpl in H.
  destruct (heap st' !! p) as [m'|]; simplify_eq/=. eauto.
Qed.

Ltac keeps_types :=
  repeat first
    [ keeps_step same_types_refl same_types_trans
    | apply keeps_modify; intros ?; apply same_types_heap; reflexivity
    | apply keeps_store; intros ? ? ?; apply same_types_store; [reflexivity | assumption]
    | assumption ].

Lemma music_internal_volume_types (volume : Z) :
  keeps same_types (music_internal_volume WAV_MUSIC volume).
Proof. unfold music_internal_volume, wav_call. keeps_types. Qed.

Lemma music_internal_initialize_volume_types :
  keeps same_types (music_internal_initialize_volume WAV_MUSIC).
Proof.
  pose proof music_internal_volume_types.
  unfold music_internal_initialize_volume. keeps_types; auto.
Qed.

Lemma music_internal_halt_types :
  keeps same_types (music_internal_halt WAV_MUSIC).
Proof. unfold music_internal_halt, wav_call. keeps_types. Qed.

Lemma music_internal_position_types (position : float) :
  keeps same_types (@music_internal_position W position).
Proof. unfold music_internal_position. keeps_types. Qed.

Lemma music_internal_playing_types :
  keeps same_types (music_internal_playing WAV_MUSIC).
Proof. unfold music_internal_playing. keeps_types. Qed.

Lemma music_internal_play_types (music : ptr) (position : float) :
  keeps same_types (music_internal_play WAV_MUSIC music position).
Proof.
  pose proof music_internal_halt_types.
  pose proof music_internal_initialize_volume_types.
  pose proof music_internal_position_types.
  unfold music_internal_play, wav_call, Mix_SetError. keeps_types; auto.
Qed.

Lemma call_music_finished_hook_types :
  keeps same_types (@call_music_finished_hook W).
Proof. unfold call_music_finished_hook. keeps_types. Qed.

Lemma music_halt_or_loop_types :
  keeps same_types (music_halt_or_loop WAV_MUSIC).
Proof.
  pose proof music_internal_halt_types.
  pose proof music_internal_playing_types.
  pose proof music_internal_play_types.
  pose proof call_music_finished_hook_types.
  unfold music_halt_or_loop. keeps_types; auto.
Qed.

Lemma wav_play_some_types (len : Z) : keeps same_types (wav_play_some len).
Proof.
  intros st a st' H. unfold wav_play_some in H. simplify_eq.
  apply same_types_heap. reflexivity.
Qed.

Lemma music_mixer_rec_types (fuel : nat) (len : Z) :
  keeps same_types (music_mixer_rec WAV_MUSIC fuel len).
Proof.
  pose proof music_internal_halt_types.
  pose proof music_internal_playing_types.
  pose proof music_internal_volume_types.
  pose proof music_halt_or_loop_types.
  pose proof call_music_finished_hook_types.
  pose proof wav_play_some_types.
  revert len. induction fuel as [|fuel IH]; intros len; simpl; keeps_types; auto.
Qed.

Lemma run_callbacks_types (lens : list Z) :
  keeps same_types (run_callbacks WAV_MUSIC lens).
Proof.
  pose proof music_mixer_rec_types.
  induction lens as [|len lens IH]; simpl; unfold music_mixer; keeps_types; auto.
Qed.

Lemma wait_for_fade_out_types (sched : schedule) :
  keeps same_types (wait_for_fade_out WAV_MUSIC sched).
Proof.
  pose proof run_callbacks_types.
  induction sched as [|lens sched IH]; simpl; keeps_types; auto.
Qed.

(** *** Running a computation step by step *)

Lemma bind_returns {A B : Type} (c : M W A) (k : A -> M W B) (st st' : State W) (b : B) :
  (c ≫= k) st = Returns b st' ->
  exists a st1, c st = Returns a st1 /\ k a st1 = Returns b st'.
Proof.
  unfold mbind, M_bind. destruct (c st) as [a st1| |]; try discriminate. eauto.
Qed.

Lemma bind_eq {A B : Type} (c : M W A) (k : A -> M W B) (st st1 : State W) (a : A) :
  c st = Returns a st1 -> (c ≫= k) st = k a st1.
Proof. unfold mbind, M_bind. intros ->. reflexivity. Qed.

(** *** What the low-level functions compute *)

Lemma music_internal_volume_eq (volume : Z) (st : State W) (p : ptr) (m : Mix_Music) :
  music_playing st = Some p ->
  heap st !! p = Some m ->
  music_internal_volume WAV_MUSIC volume st =
    Returns tt (if has_case WAV_MUSIC (type m)
                then set_wav (WAVStream_SetVolume volume (wav st)) st
                else st).
Proof.
  intros Hp Hm. unfold music_internal_volume. unfold_M.
  rewrite Hp, Hm. destruct (has_case WAV_MUSIC (type m)); reflexivity.
Qed.

Lemma music_internal_halt_eq (st : State W) (p : ptr) (m : Mix_Music) :
  music_playing st = Some p ->
  heap st !! p = Some m ->
  music_internal_halt WAV_MUSIC st =
    Returns tt (if has_case WAV_MUSIC (type m)
                then set_music_playing None
                       (set_heap (<[p := set_fading MIX_NO_FADING m]> (heap st))
                          (set_wav (WAVStream_Stop (wav st)) st))
                else st).
Proof.
  intros Hp Hm. unfold music_internal_halt. unfold_M.
  rewrite Hp, Hm. destruct (has_case WAV_MUSIC (type m)); [|reflexivity].
  repeat (progress (state_simpl; rewrite ?Hp, ?Hm)). reflexivity.
Qed.

Lemma music_internal_playing_eq (st : State W) (p : ptr) (m : Mix_Music) :
  music_playing st = Some p ->
  heap st !! p = Some m ->
  music_internal_playing WAV_MUSIC st =
    Returns (if has_case WAV_MUSIC (type m) && negb (WAVStream_Active (wav st) =? 0)
             then 1 else 0) st.
Proof.
  intros Hp Hm. unfold music_internal_playing. unfold_M.
  rewrite Hp, Hm. destruct (has_case WAV_MUSIC (type m)); [|reflexivity].
  simpl. destruct (WAVStream_Active (wav st) =? 0); reflexivity.
Qed.

Lemma call_music_finished_hook_eq (st : State W) :
  call_music_finished_hook st =
    Returns tt (match music_finished_hook st with
                | Some h => set_finished_calls (finished_calls st ++ [h]) st
                | None => st
                end).
Proof.
  unfold call_music_finished_hook. unfold_M.
  destruct (music_finished_hook st); reflexivity.
Qed.

(** *** Decoder registry *)


Lemma close_music_registry (st st' : State W) :
  close_music WAV_MUSIC st = Returns tt st' ->
  registry_ok st' /\ music_decoders st' = [] /\ ms_per_step st' = 0.
Proof.
  unfold close_music. intros H.
  apply bind_returns in H as (r & st1 & _ & H).
  unfold_M. simplify_eq. unfold registry_ok. state_simpl. auto.
Qed.

(** C10. An index that is negative or not below the number of registered
    decoders gets NULL and the array is not read; an index in range gets
    the name registered at that position. *)
Theorem Mix_GetMusicDecoder_in_bounds (index : Z) (st : State W) :
  registry_ok st ->
  (index < 0 \/ index >= num_decoders st ->
     Mix_GetMusicDecoder index st = Returns None st) /\
  (0 <= index < num_decoders st ->
     exists name,
       music_decoders st !! Z.to_nat index = Some name /\
       Mix_GetMusicDecoder index st = Returns (Some name) st).
Proof.
  unfold registry_ok. intros Hok. unfold Mix_GetMusicDecoder. unfold_M. split.
  - intros Hout.
    destruct (Z.ltb_spec index 0); [reflexivity|].
    destruct (Z.geb_spec index (num_decoders st)); [reflexivity|lia].
  - intros Hin.
    destruct (Z.ltb_spec index 0); [lia|].
    destruct (Z.geb_spec index (num_decoders st)); [lia|]. simpl.
    destruct (music_decoders st !! Z.to_nat index) as [name|] eqn:Hname.
    + exists name. split; reflexivity.
    + apply lookup_ge_None in Hname. lia.
Qed.

(** *** Queries and volume *)

(** C6. [Mix_PlayingMusic] changes nothing and answers 1 exactly when a
    track is active and either loops remain or the decoder of its format
    reports that it is active; so it answers 1 for an active track with
    loops remaining even when the decoder has reached the end. *)
Theorem Mix_PlayingMusic_iff (st : State W) :
  playing_valid st ->
  exists r,
    Mix_PlayingMusic WAV_MUSIC st = Returns r st /\
    (r = 0 \/ r = 1) /\
    (r = 1 <->
     exists p m,
       music_playing st = Some p /\ heap st !! p = Some m /\
       (music_loops st <> 0 \/
        (has_case WAV_MUSIC (type m) = true /\ WAVStream_Active (wav st) <> 0))) /\
    (music_playing st <> None -> music_loops st <> 0 -> r = 1).
Proof.
  unfold playing_valid. intros Hvalid. unfold Mix_PlayingMusic. unfold_M.
  destruct (music_playing st) as [p|] eqn:Hp.
  - destruct Hvalid as [m Hm].
    destruct (Z.eqb_spec (music_loops st) 0) as [Hl|Hl]; cbn [negb].
    + rewrite (music_internal_playing_eq st p m Hp Hm).
      destruct (has_case WAV_MUSIC (type m)) eqn:Hcase; cbn [andb].
      * destruct (Z.eqb_spec (WAVStream_Active (wav st)) 0) as [Ha|Ha]; cbn [negb].
        -- exists 0. split; [reflexivity|]. split; [auto|]. split; [|tauto].
           split; [discriminate|]. intros (q & mq & Hq & Hmq & [?|[_ ?]]); contradiction.
        -- exists 1. split; [reflexivity|]. split; [auto|]. split; [|tauto].
           split; [|reflexivity]. intros _. exists p, m. auto.
      * exists 0. split; [reflexivity|]. split; [auto|]. split; [|tauto].
        split; [discriminate|].
        intros (q & mq & Hq & Hmq & [?|[Hc _]]); [contradiction|]. simplify_eq. congruence.
    + exists 1. split; [reflexivity|]. split; [auto|]. split; [|reflexivity].
      split; [|reflexivity]. intros _. exists p, m. auto.
  - exists 0. split; [reflexivity|]. split; [auto|]. split; [|intros Hn; contradiction].
    split; [discriminate|]. intros (q & mq & Hq & _). discriminate.
Qed.

(** C7. A negative volume is a query: the previous volume is returned and
    nothing changes.  Otherwise the stored volume becomes the input clamped
    to [0, SDL_MIX_MAXVOLUME], the previous one is returned, and the decoder
    of an active track is given the new volume at once; nothing else
    changes. *)
Theorem Mix_VolumeMusic_clamps (v : Z) (st : State W) :
  playing_valid st ->
  exists st',
    Mix_VolumeMusic WAV_MUSIC v st = Returns (music_volume st) st' /\
    (v < 0 -> st' = st) /\
    (0 <= v ->
       music_volume st' = Z.min v SDL_MIX_MAXVOLUME /\
       0 <= music_volume st' <= SDL_MIX_MAXVOLUME /\
       st' = set_wav (wav st') (set_music_volume (Z.min v SDL_MIX_MAXVOLUME) st) /\
       wav st' =
         match music_playing st with
         | Some p =>
             match heap st !! p with
             | Some m =>
                 if has_case WAV_MUSIC (type m)
                 then WAVStream_SetVolume (Z.min v SDL_MIX_MAXVOLUME) (wav st)
                 else wav st
             | None => wav st
             end
         | None => wav st
         end).
Proof.
  intros Hvalid. unfold Mix_VolumeMusic. unfold_M.
  destruct (Z.ltb_spec v 0) as [Hneg|Hpos].
  - exists st. split; [reflexivity|]. split; [reflexivity|lia].
  - assert (Hmin : (if v >? SDL_MIX_MAXVOLUME then SDL_MIX_MAXVOLUME else v)
                   = Z.min v SDL_MIX_MAXVOLUME).
    { destruct (Z.gtb_spec v SDL_MIX_MAXVOLUME); lia. }
    rewrite Hmin. set (v' := Z.min v SDL_MIX_MAXVOLUME).
    assert (Hv' : 0 <= v' <= SDL_MIX_MAXVOLUME) by (unfold SDL_MIX_MAXVOLUME in *; lia).
    unfold playing_valid in Hvalid.
    destruct st as [a s l mp mv step ds nd hook h w e calls]; simpl in *.
    destruct mp as [p|]; simpl.
    + destruct Hvalid as [m Hm].
      rewrite (music_internal_volume_eq _ _ p m) by (simpl; auto).
      rewrite Hm. simpl.
      destruct (has_case WAV_MUSIC (type m)); simpl;
        (eexists; split; [reflexivity|]; split; [lia|]; intros _; simpl; auto).
    + eexists; split; [reflexivity|]; split; [lia|]; intros _; simpl; auto.
Qed.

(** *** Halting *)

Lemma Mix_HaltMusic_eq (st : State W) (p : ptr) (m : Mix_Music) :
  music_playing st = Some p ->
  heap st !! p = Some m ->
  exists st1,
    music_internal_halt WAV_MUSIC st = Returns tt st1 /\
    music_finished_hook st1 = music_finished_hook st /\
    finished_calls st1 = finished_calls st /\
    Mix_HaltMusic WAV_MUSIC st =
      Returns 0 (set_finished_calls (finished_calls st ++ notified st) st1).
Proof.
  intros Hp Hm. unfold Mix_HaltMusic. unfold_M. rewrite Hp.
  rewrite (music_internal_halt_eq st p m Hp Hm).
  eexists. split; [reflexivity|].
  unfold notified.
  destruct (has_case WAV_MUSIC (type m)); state_simpl;
    (split; [reflexivity|]; split; [reflexivity|]);
    destruct (music_finished_hook st); state_simpl; try reflexivity;
    rewrite app_nil_r; destruct st; reflexivity.
Qed.

(** C8. With the device open and [ms <= 0], [Mix_FadeOutMusic] is
    [Mix_HaltMusic] (and returns 1): with no track active nothing changes;
    with a track active the registered finished-hook is called exactly
    once, and a track whose format has a decoder is stopped, its fade
    cleared, and no track is active afterwards. *)
Theorem Mix_FadeOutMusic_nonpositive_halts (ms : Z) (st : State W) :
  ms <= 0 ->
  ms_per_step st <> 0 ->
  playing_valid st ->
  exists st',
    Mix_FadeOutMusic WAV_MUSIC ms st = Returns 1 st' /\
    Mix_HaltMusic WAV_MUSIC st = Returns 0 st' /\
    match music_playing st with
    | None => st' = st
    | Some p =>
        finished_calls st' = finished_calls st ++ notified st /\
        forall m, heap st !! p = Some m ->
                  has_case WAV_MUSIC (type m) = true ->
                  music_playing st' = None /\
                  heap st' = <[p := set_fading MIX_NO_FADING m]> (heap st) /\
                  wav st' = WAVStream_Stop (wav st)
    end.
Proof.
  unfold playing_valid. intros Hms Hopen Hvalid.
  unfold Mix_FadeOutMusic.
  assert (Hstep : forall c : M W Z,
             (_ ← c; mret 1) st =
             match c st with Returns _ st' => Returns 1 st' | Faults => Faults | Waits => Waits end)
    by reflexivity.
  unfold mbind at 1, M_bind at 1, gets at 1.
  destruct (Z.eqb_spec (ms_per_step st) 0) as [?|_]; [contradiction|].
  destruct (Z.leb_spec ms 0) as [_|?]; [|lia].
  rewrite Hstep.
  destruct (music_playing st) as [p|] eqn:Hp.
  - destruct Hvalid as [m Hm].
    destruct (Mix_HaltMusic_eq st p m Hp Hm) as (st1 & Hhalt & Hhook & Hcalls & Heq).
    rewrite Heq. eexists. split; [reflexivity|]. split; [reflexivity|].
    split; [reflexivity|].
    intros m' Hm' Hcase. simplify_eq.
    rewrite (music_internal_halt_eq st p m Hp Hm), Hcase in Hhalt.
    simplify_eq. state_simpl. auto.
  - unfold Mix_HaltMusic. unfold_M. rewrite Hp.
    exists st. auto.
Qed.

(** *** Starting a track *)

Ltac bind_step H := rewrite (bind_eq _ _ _ _ _ H); cbv beta.

Lemma playing_ptr_eq (st : State W) (p : ptr) :
  music_playing st = Some p -> playing_ptr st = Returns p st.
Proof. unfold playing_ptr. intros ->. reflexivity. Qed.

Lemma deref_eq (st : State W) (p : ptr) (m : Mix_Music) :
  heap st !! p = Some m -> deref p st = Returns m st.
Proof. unfold deref. intros ->. reflexivity. Qed.

Lemma store_eq (st : State W) (p : ptr) (m : Mix_Music) (f : Mix_Music -> Mix_Music) :
  heap st !! p = Some m ->
  store p f st = Returns tt (set_heap (<[p := f m]> (heap st)) st).
Proof. unfold store. intros ->. reflexivity. Qed.

Lemma div_or_fault_eq (st : State W) (a b q : Z) :
  int_div a b = Some q -> div_or_fault a b st = Returns q st.
Proof. unfold div_or_fault. intros ->. reflexivity. Qed.

Lemma has_case_not_MOD (m : Mix_Music) :
  has_case WAV_MUSIC (type m) = true -> type m <> MUS_MOD.
Proof. destruct (type m); simpl; congruence. Qed.

Lemma music_internal_play_idle (st : State W) (p : ptr) (m : Mix_Music) (position : float) :
  music_playing st = None ->
  heap st !! p = Some m ->
  has_case WAV_MUSIC (type m) = true ->
  music_internal_play WAV_MUSIC p position st =
    if PrimFloat.ltb 0 position then
      Returns (-1)
        (set_music_playing None
           (set_SDL_error "Position not implemented for music type"
              (set_wav (started st m) st)))
    else
      Returns 0 (set_music_playing (Some p) (set_wav (started st m) st)).
Proof.
  intros Hp Hm Hcase. pose proof (has_case_not_MOD m Hcase) as Hmod.
  unfold music_internal_play, music_internal_initialize_volume, music_internal_volume,
    music_internal_position, started.
  unfold_M. rewrite Hp.
  repeat (progress (run_simpl; rewrite ?Hm, ?Hcase)).
  destruct (decide (type m = MUS_MOD)) as [?|_]; [contradiction|].
  repeat (progress (run_simpl; rewrite ?Hm, ?Hcase)).
  destruct (decide (fading m = MIX_FADING_IN));
    repeat (progress (run_simpl; rewrite ?Hm, ?Hcase));
    destruct (PrimFloat.ltb 0 position);
    repeat (progress (run_simpl; rewrite ?Hm, ?Hcase));
    destruct st; reflexivity.
Qed.

Lemma music_internal_play_no_decoder (st : State W) (p : ptr) (m : Mix_Music) (position : float) :
  music_playing st = None ->
  heap st !! p = Some m ->
  has_case WAV_MUSIC (type m) = false ->
  music_internal_play WAV_MUSIC p position st =
    Returns (-1)
      (set_music_playing None (set_SDL_error "Can't play unknown music type" st)).
Proof.
  intros Hp Hm Hcase.
  unfold music_internal_play, music_internal_initialize_volume, music_internal_volume,
    music_internal_position.
  unfold_M. rewrite Hp.
  repeat (progress (run_simpl; rewrite ?Hm, ?Hcase)).
  destruct (decide (type m = MUS_MOD));
    repeat (progress (run_simpl; rewrite ?Hm, ?Hcase));
    [|destruct (decide (fading m = MIX_FADING_IN));
      repeat (progress (run_simpl; rewrite ?Hm, ?Hcase))];
    destruct st; reflexivity.
Qed.

(** Whatever was playing is halted first; the rest is a start on an idle
    session. *)
Lemma music_internal_play_split (st : State W) (p : ptr) (position : float) :
  music_internal_play WAV_MUSIC p position st =
    match (if music_playing st is Some _ then music_internal_halt WAV_MUSIC else mret tt) st with
    | Returns _ st1 => music_internal_play WAV_MUSIC p position (set_music_playing None st1)
    | Faults => Faults
    | Waits => Waits
    end.
Proof.
  unfold music_internal_play at 1.
  unfold mbind at 1, M_bind at 1, gets at 1.
  unfold mbind at 1, M_bind at 1.
  destruct ((if music_playing st is Some _ then music_internal_halt WAV_MUSIC else mret tt) st)
    as [[] st1| |]; reflexivity.
Qed.

(** *** Looping at the end of a track *)

Lemma set_fading_back (m : Mix_Music) (f : Mix_Fading) :
  set_fading (fading m) (set_fading f m) = m.
Proof. destruct m; reflexivity. Qed.

(** C9. In a session where the active track has a decoder (every session
    reached by calls is one, [reachable_active_has_decoder]), the decoder
    reports the end of the stream.  With loops left, the count goes down by one when positive and stays
    when negative, the track is stopped and started again (from its
    beginning, at the master volume), it stays the active track, and its
    fade state (the store as a whole) is as before; 1 is returned and no
    hook is called.  With no loop left the track is halted, its fade is
    cleared, no track is active, the registered finished-hook is called,
    and 0 is returned. *)
Theorem music_halt_or_loop_at_end (st : State W) (p : ptr) (m : Mix_Music) :
  active_has_decoder WAV_MUSIC st ->
  music_playing st = Some p ->
  heap st !! p = Some m ->
  WAVStream_Active (wav st) = 0 ->
  (music_loops st <> 0 ->
   music_halt_or_loop WAV_MUSIC st =
     Returns 1
       (set_music_loops
          (if music_loops st >? 0 then music_loops st - 1 else music_loops st)
          (set_wav
             (WAVStream_Start (wave m)
                (WAVStream_SetVolume (music_volume st) (WAVStream_Stop (wav st))))
             st))) /\
  (music_loops st = 0 ->
   music_halt_or_loop WAV_MUSIC st =
     Returns 0
       (set_finished_calls (finished_calls st ++ notified st)
          (set_music_playing None
             (set_heap (<[p := set_fading MIX_NO_FADING m]> (heap st))
                (set_wav (WAVStream_Stop (wav st)) st))))).
Proof.
  intros Hinv Hp Hm Hend.
  assert (Hcase : has_case WAV_MUSIC (type m) = true).
  { destruct (Hinv p Hp) as (m' & Hm' & Hcase). congruence. }
  unfold music_halt_or_loop.
  rewrite (bind_eq _ _ _ _ _ (music_internal_playing_eq st p m Hp Hm)).
  rewrite Hcase, Hend. cbn [andb negb Z.eqb].
  split; intros Hloops.
  - unfold mbind at 1, M_bind at 1, gets at 1.
    destruct (Z.eqb_spec (music_loops st) 0) as [?|_]; [contradiction|]. cbn [negb].
    set (loops' := if music_loops st >? 0 then music_loops st - 1 else music_loops st).
    set (st1 := set_music_loops loops' st).
    assert (Hdec : (if music_loops st >? 0
                    then modify (set_music_loops (music_loops st - 1)) else mret tt) st
                   = Returns tt st1).
    { unfold st1, loops'. destruct (music_loops st >? 0); [reflexivity|].
      unfold mret, M_ret. destruct st; reflexivity. }
    rewrite (bind_eq _ _ _ _ _ Hdec). cbv beta.
    assert (Hp1 : music_playing st1 = Some p) by exact Hp.
    assert (Hm1 : heap st1 !! p = Some m) by exact Hm.
    bind_step (playing_ptr_eq st1 p Hp1).
    bind_step (deref_eq st1 p m Hm1).
    assert (Hplay : music_internal_play WAV_MUSIC p 0 st1 =
              Returns 0
                (set_music_playing (Some p)
                   (set_heap (<[p := set_fading MIX_NO_FADING m]> (heap st))
                      (set_wav
                         (WAVStream_Start (wave m)
                            (WAVStream_SetVolume (music_volume st)
                               (WAVStream_Stop (wav st))))
                         st1)))).
    { rewrite music_internal_play_split. rewrite Hp1.
      rewrite (music_internal_halt_eq st1 p m Hp1 Hm1), Hcase.
      rewrite (music_internal_play_idle _ p (set_fading MIX_NO_FADING m));
        [ | reflexivity | state_simpl; apply lookup_insert_eq | exact Hcase ].
      change (PrimFloat.ltb 0 0) with false. cbv iota.
      unfold started, st1. state_simpl. destruct st; reflexivity. }
    bind_step Hplay.
    erewrite bind_eq by (apply playing_ptr_eq; reflexivity). cbv beta.
    erewrite bind_eq by (apply store_eq; state_simpl; apply lookup_insert_eq). cbv beta.
    unfold mret, M_ret. f_equal. state_simpl.
    rewrite insert_insert_eq, set_fading_back, (insert_id _ _ _ Hm).
    unfold st1, loops'. clear Hdec Hp1 Hm1 Hplay st1 loops'.
    destruct st; state_simpl; subst; reflexivity.
  - unfold mbind at 1, M_bind at 1, gets at 1.
    rewrite Hloops. cbn [negb Z.eqb].
    rewrite (bind_eq _ _ _ _ _ (music_internal_halt_eq st p m Hp Hm)), Hcase.
    rewrite (bind_eq _ _ _ _ _ (call_music_finished_hook_eq _)).
    unfold notified. state_simpl.
    destruct (music_finished_hook st); unfold mret, M_ret; [reflexivity|].
    rewrite app_nil_r. destruct st; reflexivity.
Qed.

(** *** Playing *)

Lemma set_heap_set_heap (h1 h2 : gmap ptr Mix_Music) (st : State W) :
  set_heap h1 (set_heap h2 st) = set_heap h1 st.
Proof. destruct st; reflexivity. Qed.

Lemma Mix_FadeInMusicPos_eq (sched : schedule) (st : State W) (p : ptr) (m : Mix_Music)
    (loops ms : Z) (position : float) :
  ms_per_step st <> 0 ->
  heap st !! p = Some m ->
  Mix_FadeInMusicPos WAV_MUSIC sched (Some p) loops ms position st =
    match int_div ms (ms_per_step st) with
    | Some steps =>
        (wait_for_fade_out WAV_MUSIC sched ≫= fun _ =>
         modify (set_music_active 1) ≫= fun _ =>
         modify (set_music_loops (if loops =? 1 then 0 else loops)) ≫= fun _ =>
         music_internal_play WAV_MUSIC p position)
          (set_heap (<[p := fade_in_setup ms steps m]> (heap st)) st)
    | None => Faults
    end.
Proof.
  intros Hopen Hm. unfold Mix_FadeInMusicPos.
  unfold mbind at 1, M_bind at 1, gets at 1.
  destruct (Z.eqb_spec (ms_per_step st) 0) as [?|_]; [contradiction|].
  bind_step (store_eq st p m (set_fading (if ms =? 0 then MIX_NO_FADING else MIX_FADING_IN)) Hm).
  erewrite bind_eq by (apply store_eq; state_simpl; apply lookup_insert_eq). cbv beta.
  unfold div_or_fault. destruct (int_div ms (ms_per_step st)) as [steps|]; [|reflexivity].
  unfold mret at 1, M_ret at 1. unfold mbind at 1, M_bind at 1.
  erewrite bind_eq by (apply store_eq; state_simpl; apply lookup_insert_eq). cbv beta.
  state_simpl. rewrite !insert_insert_eq, !set_heap_set_heap.
  reflexivity.
Qed.

Lemma same_loops_refl (st : State W) : same_loops st st.
Proof. reflexivity. Qed.

Lemma same_loops_trans (st1 st2 st3 : State W) :
  same_loops st1 st2 -> same_loops st2 st3 -> same_loops st1 st3.
Proof. unfold same_loops. congruence. Qed.

Lemma music_internal_halt_loops : keeps same_loops (music_internal_halt WAV_MUSIC).
Proof.
  unfold music_internal_halt, wav_call.
  repeat first
    [ keeps_step same_loops_refl same_loops_trans
    | apply keeps_modify; intros ?; reflexivity
    | apply keeps_store; intros ? ? ?; reflexivity ].
Qed.

(** Every run of [Mix_FadeInMusicPos] that returns ends in a start of
    [music] on an idle session where [music] has the format it had and the
    loop count is the normalized one. *)
Lemma Mix_FadeInMusicPos_returns (sched : schedule) (st st' : State W) (p : ptr)
    (m : Mix_Music) (loops ms r : Z) (position : float) :
  ms_per_step st <> 0 ->
  heap st !! p = Some m ->
  Mix_FadeInMusicPos WAV_MUSIC sched (Some p) loops ms position st = Returns r st' ->
  exists st4 m4,
    music_playing st4 = None /\
    heap st4 !! p = Some m4 /\
    type m4 = type m /\
    music_loops st4 = (if loops =? 1 then 0 else loops) /\
    music_internal_play WAV_MUSIC p position st4 = Returns r st'.
Proof.
  intros Hopen Hm H.
  rewrite (Mix_FadeInMusicPos_eq sched st p m loops ms position Hopen Hm) in H.
  destruct (int_div ms (ms_per_step st)) as [steps|]; [|discriminate].
  apply bind_returns in H as ([] & st2 & Hwait & H).
  apply wait_for_fade_out_types in Hwait.
  unfold modify at 1 in H. unfold mbind at 1, M_bind at 1 in H.
  unfold modify at 1 in H. unfold mbind at 1, M_bind at 1 in H.
  rewrite music_internal_play_split in H. state_simpl.
  destruct ((if music_playing st2 is Some _ then music_internal_halt WAV_MUSIC else mret tt)
              (set_music_loops (if loops =? 1 then 0 else loops) (set_music_active 1 st2)))
    as [[] sth| |] eqn:Hhalt; try discriminate.
  assert (Hloops : music_loops sth = (if loops =? 1 then 0 else loops)).
  { destruct (music_playing st2).
    - apply music_internal_halt_loops in Hhalt. exact Hhalt.
    - unfold mret, M_ret in Hhalt. simplify_eq. reflexivity. }
  assert (Htypes : same_types st2 sth).
  { destruct (music_playing st2).
    - apply music_internal_halt_types in Hhalt.
      intros q. rewrite <- (Hhalt q). reflexivity.
    - unfold mret, M_ret in Hhalt. simplify_eq. apply same_types_heap. reflexivity. }
  destruct (same_types_lookup _ _ p (fade_in_setup ms steps m)
              (same_types_trans _ _ _ Hwait Htypes)) as (m4 & Hm4 &Ht4).
  { state_simpl. apply lookup_insert_eq. }
  exists (set_music_playing None sth), m4.
  split; [reflexivity|]. split; [exact Hm4|]. split; [exact Ht4|].
  split; [exact Hloops|]. exact H.
Qed.

Lemma wait_for_fade_out_skip (sched : schedule) (st : State W) :
  playing_valid st ->
  (forall q mq, music_playing st = Some q -> heap st !! q = Some mq ->
                fading mq <> MIX_FADING_OUT) ->
  wait_for_fade_out WAV_MUSIC sched st = Returns tt st.
Proof.
  unfold playing_valid. intros Hvalid Hfade.
  assert (Hbody : forall k : M W unit,
            (mp ← gets music_playing;
             match mp with
             | None => mret tt
             | Some p => m ← deref p;
                         if decide (fading m = MIX_FADING_OUT) then k else mret tt
             end) st = Returns tt st).
  { intros k. unfold_M. destruct (music_playing st) as [q|]; [|reflexivity].
    destruct Hvalid as [mq Hmq]. rewrite Hmq.
    destruct (decide (fading mq = MIX_FADING_OUT)) as [Hout|_]; [|reflexivity].
    exfalso. exact (Hfade q mq eq_refl Hmq Hout). }
  destruct sched; simpl; apply Hbody.
Qed.

Lemma Mix_FadeInMusicPos_progress (sched : schedule) (st : State W) (p : ptr)
    (m : Mix_Music) (loops ms : Z) (position : float) :
  ms_per_step st <> 0 ->
  heap st !! p = Some m ->
  playing_valid st ->
  no_fade_out_pending st p ->
  is_Some (int_div ms (ms_per_step st)) ->
  exists r st', Mix_FadeInMusicPos WAV_MUSIC sched (Some p) loops ms position st = Returns r st'.
Proof.
  unfold playing_valid, no_fade_out_pending.
  intros Hopen Hm Hvalid Hpending [steps Hdiv].
  rewrite (Mix_FadeInMusicPos_eq sched st p m loops ms position Hopen Hm), Hdiv.
  set (st1 := set_heap (<[p := fade_in_setup ms steps m]> (heap st)) st).
  assert (Hvalid1 : playing_valid st1).
  { unfold playing_valid, st1. state_simpl.
    destruct (music_playing st) as [q|]; [|exact I].
    destruct (decide (p = q)) as [->|Hne].
    - rewrite lookup_insert_eq. eauto.
    - rewrite lookup_insert_ne by assumption. exact Hvalid. }
  assert (Hwait : wait_for_fade_out WAV_MUSIC sched st1 = Returns tt st1).
  { apply wait_for_fade_out_skip; [exact Hvalid1|].
    unfold st1. state_simpl. intros q mq Hq Hmq.
    destruct (decide (p = q)) as [->|Hne].
    - rewrite lookup_insert_eq in Hmq. simplify_eq.
      unfold fade_in_setup. state_simpl. destruct (ms =? 0); discriminate.
    - rewrite lookup_insert_ne in Hmq by assumption.
      apply (Hpending q mq Hq); [congruence | exact Hmq]. }
  bind_step Hwait.
  unfold modify at 1. unfold mbind at 1, M_bind at 1.
  unfold modify at 1. unfold mbind at 1, M_bind at 1.
  rewrite music_internal_play_split. state_simpl.
  set (st3 := set_music_loops _ _).
  assert (Hhalt : exists sth m4,
            (if music_playing st1 is Some _ then music_internal_halt WAV_MUSIC else mret tt) st3
            = Returns tt sth /\ heap sth !! p = Some m4 /\ type m4 = type m).
  { assert (Hm3 : heap st3 !! p = Some (fade_in_setup ms steps m))
      by (unfold st3, st1; state_simpl; apply lookup_insert_eq).
    unfold playing_valid in Hvalid1.
    destruct (music_playing st1) as [q|] eqn:Hq.
    - destruct Hvalid1 as [mq Hmq].
      destruct (music_internal_halt WAV_MUSIC st3) as [[] sth| |] eqn:Hh.
      + apply music_internal_halt_types in Hh.
        destruct (same_types_lookup _ _ p _ Hh Hm3) as (m4 & Hm4 & Ht4).
        exists sth, m4. auto.
      + rewrite (music_internal_halt_eq st3 q mq) in Hh by assumption. discriminate.
      + rewrite (music_internal_halt_eq st3 q mq) in Hh by assumption. discriminate.
    - exists st3, (fade_in_setup ms steps m). auto. }
  destruct Hhalt as (sth & m4 & -> & Hm4 & Ht4).
  destruct (has_case WAV_MUSIC (type m4)) eqn:Hcase.
  - rewrite (music_internal_play_idle (set_music_playing None sth) p m4 position eq_refl Hm4 Hcase).
    destruct (PrimFloat.ltb 0 position); eauto.
  - rewrite (music_internal_play_no_decoder (set_music_playing None sth) p m4 position eq_refl Hm4 Hcase). eauto.
Qed.

(** The outcome of a start on an idle session, for every format. *)
Lemma music_internal_play_idle_result (st st' : State W) (p : ptr) (m : Mix_Music)
    (position : float) (r : Z) :
  music_playing st = None ->
  heap st !! p = Some m ->
  music_internal_play WAV_MUSIC p position st = Returns r st' ->
  music_loops st' = music_loops st /\
  (PrimFloat.ltb 0 position = true ->
   r = -1 /\ music_playing st' = None /\
   SDL_error st' = if has_case WAV_MUSIC (type m)
                   then "Position not implemented for music type"%string
                   else "Can't play unknown music type"%string).
Proof.
  intros Hp Hm H.
  destruct (has_case WAV_MUSIC (type m)) eqn:Hcase.
  - rewrite (music_internal_play_idle st p m position Hp Hm Hcase) in H.
    destruct (PrimFloat.ltb 0 position); simplify_eq; split; try reflexivity.
    + intros _. auto.
    + discriminate.
  - rewrite (music_internal_play_no_decoder st p m position Hp Hm Hcase) in H.
    simplify_eq. split; [reflexivity|]. intros _. auto.
Qed.

(** C1, as the code has it.  A play request with a positive start position
    fails whatever the format of the track, since no format implements
    seeking: every run that returns gives -1, leaves no track active and
    has set the error string ("Position not implemented for music type"
    for a format with a decoder, "Can't play unknown music type"
    otherwise); and the call does return when it has nothing to wait
    for. *)
Theorem Mix_FadeInMusicPos_position_fails (sched : schedule) (st : State W) (p : ptr)
    (m : Mix_Music) (loops ms : Z) (position : float) :
  ms_per_step st <> 0 ->
  heap st !! p = Some m ->
  PrimFloat.ltb 0 position = true ->
  (forall r st',
     Mix_FadeInMusicPos WAV_MUSIC sched (Some p) loops ms position st = Returns r st' ->
     r = -1 /\ music_playing st' = None /\
     SDL_error st' = if has_case WAV_MUSIC (type m)
                     then "Position not implemented for music type"%string
                     else "Can't play unknown music type"%string) /\
  (playing_valid st ->
   no_fade_out_pending st p ->
   is_Some (int_div ms (ms_per_step st)) ->
   exists st',
     Mix_FadeInMusicPos WAV_MUSIC sched (Some p) loops ms position st = Returns (-1) st').
Proof.
  intros Hopen Hm Hpos.
  assert (Hall : forall r st',
     Mix_FadeInMusicPos WAV_MUSIC sched (Some p) loops ms position st = Returns r st' ->
     r = -1 /\ music_playing st' = None /\
     SDL_error st' = if has_case WAV_MUSIC (type m)
                     then "Position not implemented for music type"%string
                     else "Can't play unknown music type"%string).
  { intros r st' H.
    destruct (Mix_FadeInMusicPos_returns _ _ _ _ _ _ _ _ _ Hopen Hm H)
      as (st4 & m4 & Hp4 & Hm4 & Ht4 & _ & Hplay).
    destruct (music_internal_play_idle_result _ _ _ _ _ _ Hp4 Hm4 Hplay) as [_ Hres].
    rewrite Ht4 in Hres. exact (Hres Hpos). }
  split; [exact Hall|].
  intros Hvalid Hpending Hdiv.
  destruct (Mix_FadeInMusicPos_progress sched st p m loops ms position
              Hopen Hm Hvalid Hpending Hdiv) as (r & st' & H).
  destruct (Hall r st' H) as [-> _]. eauto.
Qed.

(** C5.  A loop count of 1 is treated exactly as 0: the two calls have the
    same outcome, state included.  With the device open and a live track,
    every run that returns has stored the loop count given (0 for 1, any
    other value unchanged), and the call does return when it has nothing to
    wait for. *)
Theorem Mix_FadeInMusicPos_loops (sched : schedule) (st : State W) (music : option ptr)
    (ms : Z) (position : float) :
  Mix_FadeInMusicPos WAV_MUSIC sched music 1 ms position st =
    Mix_FadeInMusicPos WAV_MUSIC sched music 0 ms position st /\
  (forall (loops : Z) (p : ptr) (m : Mix_Music),
     music = Some p ->
     ms_per_step st <> 0 ->
     heap st !! p = Some m ->
     (forall r st',
        Mix_FadeInMusicPos WAV_MUSIC sched music loops ms position st = Returns r st' ->
        (loops = 1 -> music_loops st' = 0) /\
        (loops <> 1 -> music_loops st' = loops)) /\
     (playing_valid st ->
      no_fade_out_pending st p ->
      is_Some (int_div ms (ms_per_step st)) ->
      exists r st',
        Mix_FadeInMusicPos WAV_MUSIC sched music loops ms position st = Returns r st')).
Proof.
  split; [reflexivity|].
  intros loops p m -> Hopen Hm. split.
  - intros r st' H.
    destruct (Mix_FadeInMusicPos_returns _ _ _ _ _ _ _ _ _ Hopen Hm H)
      as (st4 & m4 & Hp4 & Hm4 & _ & Hloops & Hplay).
    destruct (music_internal_play_idle_result _ _ _ _ _ _ Hp4 Hm4 Hplay) as [Hsame _].
    rewrite Hsame, Hloops.
    destruct (Z.eqb_spec loops 1); split; intros; congruence.
  - apply (Mix_FadeInMusicPos_progress sched st p m); assumption.
Qed.

(** *** Fading out *)

Lemma wrap_int_small (z : Z) : in_int z -> wrap_int z = z.
Proof.
  unfold in_int, wrap_int, INT_MIN, INT_MAX. intros H.
  rewrite Z.mod_small by lia. lia.
Qed.

Lemma int_div_quot (a b : Z) :
  b <> 0 -> in_int (Z.quot a b) -> in_int a -> int_div a b = Some (Z.quot a b).
Proof.
  unfold int_div. intros Hb Hq Ha.
  destruct (Z.eqb_spec b 0) as [?|_]; [contradiction|].
  destruct (Z.eqb_spec a INT_MIN) as [->|_]; [|reflexivity].
  destruct (Z.eqb_spec b (-1)) as [->|_]; [|reflexivity].
  exfalso. unfold in_int, INT_MIN, INT_MAX in Hq. vm_compute in Hq.
  destruct Hq as [_ Hq]. apply Hq. reflexivity.
Qed.

(** C3, as the code has it.  A fade-out of [ms > 0] milliseconds requested
    while the active track is fading (in or out): provided the step count
    of the fade under way is not 0 and no intermediate [int] overflows, the
    new [fade_step] is the quotient, truncated toward zero, of
    [elapsed_equivalent_steps * new_total] by the old step count, the step
    count becomes [new_total] and the fade state FADING_OUT; 1 is
    returned and nothing else changes. *)
Theorem Mix_FadeOutMusic_rescales (st : State W) (p : ptr) (m : Mix_Music) (ms : Z) :
  0 < ms ->
  ms_per_step st <> 0 ->
  music_playing st = Some p ->
  heap st !! p = Some m ->
  fading m <> MIX_NO_FADING ->
  fade_steps m <> 0 ->
  Forall in_int
    [ ms + ms_per_step st; ms + ms_per_step st - 1;
      fade_steps m - fade_step m;
      elapsed_equivalent_steps m;
      elapsed_equivalent_steps m * fade_out_total ms (ms_per_step st);
      Z.quot (elapsed_equivalent_steps m * fade_out_total ms (ms_per_step st))
             (fade_steps m) ] ->
  Mix_FadeOutMusic WAV_MUSIC ms st =
    Returns 1
      (set_heap
         (<[p := set_fade_steps (fade_out_total ms (ms_per_step st))
                   (set_fading MIX_FADING_OUT
                      (set_fade_step
                         (Z.quot (elapsed_equivalent_steps m
                                  * fade_out_total ms (ms_per_step st))
                                 (fade_steps m))
                         m))]> (heap st))
         st).
Proof.
  intros Hms Hopen Hp Hm Hfading Hold Hfit.
  repeat (apply Forall_cons in Hfit as [? Hfit]).
  unfold Mix_FadeOutMusic.
  unfold mbind at 1, M_bind at 1, gets at 1.
  destruct (Z.eqb_spec (ms_per_step st) 0) as [?|_]; [contradiction|].
  destruct (Z.leb_spec ms 0) as [?|_]; [lia|].
  unfold mbind at 1, M_bind at 1, gets at 1. rewrite Hp.
  assert (Htotal : int_div (int_sub (int_add ms (ms_per_step st)) 1) (ms_per_step st)
                   = Some (fade_out_total ms (ms_per_step st))).
  { unfold int_sub, int_add, fade_out_total.
    rewrite (wrap_int_small (ms + ms_per_step st)) by assumption.
    rewrite (wrap_int_small (ms + ms_per_step st - 1)) by assumption.
    unfold int_div.
    destruct (Z.eqb_spec (ms_per_step st) 0) as [?|_]; [contradiction|].
    destruct (Z.eqb_spec (ms + ms_per_step st - 1) INT_MIN) as [Hmin|_]; [|reflexivity].
    destruct (Z.eqb_spec (ms_per_step st) (-1)) as [Hone|_]; [|reflexivity].
    unfold INT_MIN in Hmin. lia. }
  bind_step (div_or_fault_eq st _ _ _ Htotal).
  bind_step (deref_eq st p m Hm).
  destruct (decide (fading m = MIX_NO_FADING)) as [?|_]; [contradiction|].
  set (new_total := fade_out_total ms (ms_per_step st)) in *.
  assert (Hstep : (if decide (fading m = MIX_FADING_OUT) then fade_step m
                   else int_add (int_sub (fade_steps m) (fade_step m)) 1)
                  = elapsed_equivalent_steps m).
  { unfold elapsed_equivalent_steps in *.
    destruct (decide (fading m = MIX_FADING_OUT)); [reflexivity|].
    unfold int_add, int_sub.
    rewrite (wrap_int_small (fade_steps m - fade_step m)) by assumption.
    apply wrap_int_small. assumption. }
  cbv zeta. rewrite Hstep.
  unfold int_mul. rewrite wrap_int_small by assumption.
  assert (Hq : forall k : Z -> M W unit,
            (div_or_fault (elapsed_equivalent_steps m * new_total) (fade_steps m) ≫= k) st
            = k (Z.quot (elapsed_equivalent_steps m * new_total) (fade_steps m)) st).
  { intros k. apply bind_eq, div_or_fault_eq, int_div_quot; assumption. }
  erewrite bind_eq by (rewrite Hq; apply store_eq; exact Hm). cbv beta.
  erewrite bind_eq by (apply store_eq; state_simpl; apply lookup_insert_eq). cbv beta.
  erewrite bind_eq by (apply store_eq; state_simpl; apply lookup_insert_eq). cbv beta.
  unfold mret, M_ret. f_equal.
  state_simpl. rewrite !insert_insert_eq, !set_heap_set_heap. reflexivity.
Qed.

(** *** The fuel of the mixing function *)


Lemma bind_ext {A B : Type} (c : M W A) (k1 k2 : A -> M W B) (st : State W) :
  (forall a st1, k1 a st1 = k2 a st1) -> (c ≫= k1) st = (c ≫= k2) st.
Proof.
  intros Hk. unfold mbind, M_bind. destruct (c st); [apply Hk | reflexivity | reflexivity].
Qed.

Ltac ext_step :=
  lazymatch goal with
  | |- (?c ≫= _) ?st = (?c ≫= _) ?st => apply bind_ext; intros ? ?
  | |- (if ?b then _ else _) _ = (if ?b then _ else _) _ => destruct b eqn:?
  | |- (match ?x with _ => _ end) _ = (match ?x with _ => _ end) _ => destruct x eqn:?
  end.

(** The recursive call is on a [left] with [0 < left < len]: any fuel of at
    least [len] gives the same run, and [music_mixer] never runs out. *)
Lemma music_mixer_rec_fuel (fuel1 fuel2 : nat) (len : Z) (st : State W) :
  (Z.to_nat len <= fuel1)%nat ->
  (Z.to_nat len <= fuel2)%nat ->
  music_mixer_rec WAV_MUSIC fuel1 len st = music_mixer_rec WAV_MUSIC fuel2 len st.
Proof.
  revert fuel2 len st.
  induction fuel1 as [|fuel1 IH]; intros [|fuel2] len st H1 H2; simpl;
    repeat first
      [ match goal with |- ?x = ?x => reflexivity end
      | ext_step
      | match goal with
        | Hc : (?left >? 0) && (?left <? len) = true |- _ =>
            apply andb_prop in Hc as [Hpos Hlt];
            apply Z.gtb_lt in Hpos; apply Z.ltb_lt in Hlt;
            first [ lia | apply IH; lia ]
        end ].
Qed.

(** *** The active track always has a decoder *)

Lemma active_has_decoder_valid (st : State W) :
  active_has_decoder WAV_MUSIC st -> playing_valid st.
Proof.
  unfold playing_valid. intros H. destruct (music_playing st) as [p|] eqn:Hp; [|exact I].
  destruct (H p Hp) as (m & Hm & _). eauto.
Qed.

Lemma keeps_decoder_refl (st : State W) : keeps_decoder WAV_MUSIC st st.
Proof. intros H. exact H. Qed.

Lemma keeps_decoder_trans (st1 st2 st3 : State W) :
  keeps_decoder WAV_MUSIC st1 st2 -> keeps_decoder WAV_MUSIC st2 st3 ->
  keeps_decoder WAV_MUSIC st1 st3.
Proof. unfold keeps_decoder. auto. Qed.

Lemma keeps_decoder_frame (st st' : State W) :
  music_playing st' = music_playing st ->
  heap st' = heap st ->
  keeps_decoder WAV_MUSIC st st'.
Proof. intros Hp Hh H q Hq. rewrite Hh. apply H. congruence. Qed.

Lemma keeps_decoder_stop (st st' : State W) :
  music_playing st' = None -> keeps_decoder WAV_MUSIC st st'.
Proof. intros Hp _ q Hq. congruence. Qed.

Lemma keeps_decoder_store (st : State W) (p : ptr) (f : Mix_Music -> Mix_Music) (m : Mix_Music) :
  type (f m) = type m ->
  heap st !! p = Some m ->
  keeps_decoder WAV_MUSIC st (set_heap (<[p := f m]> (heap st)) st).
Proof.
  intros Hf Hm H q Hq. destruct (H q Hq) as (mq & Hmq & Hcase). state_simpl.
  destruct (decide (p = q)) as [->|Hne].
  - rewrite lookup_insert_eq. exists (f m). split; [reflexivity|]. congruence.
  - rewrite lookup_insert_ne by assumption. eauto.
Qed.

Ltac keeps_decoder_tac :=
  repeat first
    [ keeps_step keeps_decoder_refl keeps_decoder_trans
    | apply keeps_modify; intros ?;
      first [ apply keeps_decoder_frame; reflexivity
            | apply keeps_decoder_stop; reflexivity ]
    | apply keeps_store; intros ? ? ?; apply keeps_decoder_store; [reflexivity | assumption]
    | assumption ].

Lemma music_internal_play_dangling (st : State W) (p : ptr) (position : float) :
  music_playing st = None ->
  heap st !! p = None ->
  music_internal_play WAV_MUSIC p position st = Faults.
Proof.
  intros Hp Hm. unfold music_internal_play. unfold_M. rewrite Hp.
  repeat (progress (run_simpl; rewrite ?Hm)). reflexivity.
Qed.

(** Whatever the session before, a start that returns leaves no track
    active or one with a decoder. *)
Lemma music_internal_play_decoder (music : ptr) (position : float) (st st' : State W) (r : Z) :
  music_internal_play WAV_MUSIC music position st = Returns r st' ->
  active_has_decoder WAV_MUSIC st'.
Proof.
  rewrite music_internal_play_split.
  destruct ((if music_playing st is Some _ then music_internal_halt WAV_MUSIC else mret tt) st)
    as [[] st1| |]; try discriminate.
  destruct (heap (set_music_playing None st1) !! music) as [m|] eqn:Hm.
  - destruct (has_case WAV_MUSIC (type m)) eqn:Hcase.
    + rewrite (music_internal_play_idle (set_music_playing None st1) music m position
                 eq_refl Hm Hcase).
      destruct (PrimFloat.ltb 0 position); intros H; simplify_eq.
      * intros q Hq. discriminate Hq.
      * intros q Hq. state_simpl. simplify_eq. eauto.
    + rewrite (music_internal_play_no_decoder (set_music_playing None st1) music m position
                 eq_refl Hm Hcase).
      intros H; simplify_eq. intros q Hq. discriminate Hq.
  - rewrite (music_internal_play_dangling (set_music_playing None st1) music position
               eq_refl Hm). discriminate.
Qed.

Lemma music_internal_play_keeps_decoder (music : ptr) (position : float) :
  keeps (keeps_decoder WAV_MUSIC) (music_internal_play WAV_MUSIC music position).
Proof. intros st r st' H _. exact (music_internal_play_decoder _ _ _ _ _ H). Qed.

Lemma music_internal_volume_keeps_decoder (volume : Z) :
  keeps (keeps_decoder WAV_MUSIC) (music_internal_volume WAV_MUSIC volume).
Proof. unfold music_internal_volume, wav_call. keeps_decoder_tac. Qed.

Lemma music_internal_halt_keeps_decoder :
  keeps (keeps_decoder WAV_MUSIC) (music_internal_halt WAV_MUSIC).
Proof. unfold music_internal_halt, wav_call. keeps_decoder_tac. Qed.

Lemma music_internal_position_keeps_decoder (position : float) :
  keeps (keeps_decoder WAV_MUSIC) (@music_internal_position W position).
Proof. unfold music_internal_position. keeps_decoder_tac. Qed.

Lemma music_internal_playing_keeps_decoder :
  keeps (keeps_decoder WAV_MUSIC) (music_internal_playing WAV_MUSIC).
Proof. unfold music_internal_playing. keeps_decoder_tac. Qed.

Lemma call_music_finished_hook_keeps_decoder :
  keeps (keeps_decoder WAV_MUSIC) (@call_music_finished_hook W).
Proof. unfold call_music_finished_hook. keeps_decoder_tac. Qed.

Lemma music_halt_or_loop_keeps_decoder :
  keeps (keeps_decoder WAV_MUSIC) (music_halt_or_loop WAV_MUSIC).
Proof.
  pose proof music_internal_halt_keeps_decoder.
  pose proof music_internal_playing_keeps_decoder.
  pose proof music_internal_play_keeps_decoder.
  pose proof call_music_finished_hook_keeps_decoder.
  unfold music_halt_or_loop. keeps_decoder_tac; auto.
Qed.

Lemma music_mixer_rec_keeps_decoder (fuel : nat) (len : Z) :
  keeps (keeps_decoder WAV_MUSIC) (music_mixer_rec WAV_MUSIC fuel len).
Proof.
  pose proof music_internal_halt_keeps_decoder.
  pose proof music_internal_playing_keeps_decoder.
  pose proof music_internal_volume_keeps_decoder.
  pose proof music_halt_or_loop_keeps_decoder.
  pose proof call_music_finished_hook_keeps_decoder.
  assert (forall n, keeps (keeps_decoder WAV_MUSIC) (@wav_play_some W wav_ops n)).
  { intros n st a st' Hx. unfold wav_play_some in Hx. simplify_eq.
    apply keeps_decoder_frame; reflexivity. }
  revert len. induction fuel as [|fuel IH]; intros len; simpl; keeps_decoder_tac; auto.
Qed.

Lemma wait_for_fade_out_keeps_decoder (sched : schedule) :
  keeps (keeps_decoder WAV_MUSIC) (wait_for_fade_out WAV_MUSIC sched).
Proof.
  pose proof music_mixer_rec_keeps_decoder.
  assert (Hrun : forall lens, keeps (keeps_decoder WAV_MUSIC) (run_callbacks WAV_MUSIC lens)).
  { induction lens as [|len lens IH]; simpl; unfold music_mixer; keeps_decoder_tac; auto. }
  induction sched as [|lens sched IH]; simpl; keeps_decoder_tac; auto.
Qed.

Lemma Mix_HaltMusic_keeps_decoder :
  keeps (keeps_decoder WAV_MUSIC) (Mix_HaltMusic WAV_MUSIC).
Proof.
  pose proof music_internal_halt_keeps_decoder.
  pose proof call_music_finished_hook_keeps_decoder.
  unfold Mix_HaltMusic. keeps_decoder_tac; auto.
Qed.

Lemma Mix_VolumeMusic_keeps_decoder (volume : Z) :
  keeps (keeps_decoder WAV_MUSIC) (Mix_VolumeMusic WAV_MUSIC volume).
Proof.
  pose proof music_internal_volume_keeps_decoder.
  unfold Mix_VolumeMusic. keeps_decoder_tac; auto.
Qed.

Lemma run_call_keeps_decoder (c : call) :
  keeps (keeps_decoder WAV_MUSIC) (run_call WAV_MUSIC c).
Proof.
  pose proof music_internal_play_keeps_decoder.
  pose proof music_internal_position_keeps_decoder.
  pose proof music_mixer_rec_keeps_decoder.
  pose proof wait_for_fade_out_keeps_decoder.
  pose proof Mix_HaltMusic_keeps_decoder.
  pose proof Mix_VolumeMusic_keeps_decoder.
  destruct c; unfold run_call.
  - unfold Mix_FadeInMusicPos, Mix_SetError. keeps_decoder_tac; auto.
  - unfold Mix_SetMusicPosition, Mix_SetError. keeps_decoder_tac; auto.
  - keeps_decoder_tac; auto.
  - keeps_decoder_tac; auto.
  - unfold Mix_FadeOutMusic, Mix_SetError. keeps_decoder_tac; auto.
  - unfold Mix_PauseMusic. keeps_decoder_tac.
  - unfold Mix_ResumeMusic. keeps_decoder_tac.
  - unfold Mix_HookMusicFinished. keeps_decoder_tac.
  - unfold music_mixer. auto.
  - unfold open_music, add_music_decoder. keeps_decoder_tac; auto.
  - unfold close_music. keeps_decoder_tac; auto.
Qed.

(** In every session reached from one where the active track has a decoder,
    the active track has a decoder: it is live and of a format the build
    can play. *)
Theorem reachable_active_has_decoder (st0 st : State W) :
  active_has_decoder WAV_MUSIC st0 ->
  reachable WAV_MUSIC st0 st ->
  active_has_decoder WAV_MUSIC st.
Proof.
  intros H0 Hreach. induction Hreach as [|st st' c _ IH Hcall]; [exact H0|].
  exact (run_call_keeps_decoder c st tt st' Hcall IH).
Qed.

(** *** Seeking *)

(** X4.  Seeking is implemented for no format: [Mix_SetMusicPosition]
    returns -1 on every session and changes the error string only ("Music
    isn't playing" on an idle session, "Position not implemented for music
    type" otherwise); so [Mix_RewindMusic] rewinds nothing. *)
Theorem Mix_SetMusicPosition_unsupported (position : float) (st : State W) :
  playing_valid st ->
  Mix_SetMusicPosition position st =
    Returns (-1)
      (set_SDL_error
         (if music_playing st is Some _
          then "Position not implemented for music type"%string
          else "Music isn't playing"%string) st) /\
  Mix_RewindMusic st =
    Returns tt
      (set_SDL_error
         (if music_playing st is Some _
          then "Position not implemented for music type"%string
          else "Music isn't playing"%string) st).
Proof.
  unfold playing_valid, Mix_RewindMusic, Mix_SetMusicPosition, music_internal_position.
  intros Hvalid. unfold_M.
  destruct (music_playing st) as [p|] eqn:Hp.
  - destruct Hvalid as [m Hm].
    repeat (progress (run_simpl; rewrite ?Hp, ?Hm)). split; reflexivity.
  - run_simpl. split; reflexivity.
Qed.

(** *** The mixing callback on a paused, idle or fading session *)

Lemma music_mixer_idle (len : Z) (st : State W) :
  music_active st = 0 \/ music_playing st = None ->
  music_mixer WAV_MUSIC len st = Returns tt st.
Proof.
  intros Hidle. unfold music_mixer.
  assert (Hcond : (if music_playing st is Some _ then true else false)
                  && negb (music_active st =? 0) = false).
  { destruct Hidle as [-> | ->]; [|reflexivity].
    destruct (music_playing st); reflexivity. }
  destruct (Z.to_nat len); simpl; unfold_M; rewrite Hcond; reflexivity.
Qed.

Lemma run_callbacks_paused (lens : list Z) (st : State W) :
  music_active st = 0 \/ music_playing st = None ->
  run_callbacks WAV_MUSIC lens st = Returns tt st.
Proof.
  intros Hidle. induction lens as [|len lens IH]; simpl; [reflexivity|].
  bind_step (music_mixer_idle len st Hidle). exact IH.
Qed.

(** X5.  While the music is paused, or when no track is active, the mixing
    callback changes nothing, however often it runs: no fade step is
    counted, no loop is taken, no hook is called and the decoder is not
    asked for samples. *)
Theorem music_mixer_paused (len : Z) (lens : list Z) (st : State W) :
  music_active st = 0 \/ music_playing st = None ->
  music_mixer WAV_MUSIC len st = Returns tt st /\
  run_callbacks WAV_MUSIC lens st = Returns tt st.
Proof.
  intros Hidle. split; [apply music_mixer_idle | apply run_callbacks_paused]; exact Hidle.
Qed.

Lemma wait_for_fade_out_paused (sched : schedule) (st : State W) (q : ptr) (mq : Mix_Music) :
  music_active st = 0 ->
  music_playing st = Some q ->
  heap st !! q = Some mq ->
  fading mq = MIX_FADING_OUT ->
  wait_for_fade_out WAV_MUSIC sched st = Waits.
Proof.
  intros Hpaused Hq Hmq Hout.
  induction sched as [|lens sched IH]; simpl; unfold gets at 1;
    unfold mbind at 1, M_bind at 1; rewrite Hq;
    bind_step (deref_eq st q mq Hmq);
    (destruct (decide (fading mq = MIX_FADING_OUT)) as [_|?]; [|contradiction]).
  - reflexivity.
  - bind_step (run_callbacks_paused lens st (or_introl Hpaused)). exact IH.
Qed.

(** X6.  A play request made while the music is paused and another track is
    fading out never returns, whatever the audio thread does: the fade the
    call waits for is counted by the mixing callback, which does nothing
    while paused. *)
Theorem Mix_FadeInMusicPos_paused_waits (sched : schedule) (st : State W) (p q : ptr)
    (m mq : Mix_Music) (loops ms : Z) (position : float) :
  ms_per_step st <> 0 ->
  is_Some (int_div ms (ms_per_step st)) ->
  heap st !! p = Some m ->
  music_active st = 0 ->
  music_playing st = Some q ->
  q <> p ->
  heap st !! q = Some mq ->
  fading mq = MIX_FADING_OUT ->
  Mix_FadeInMusicPos WAV_MUSIC sched (Some p) loops ms position st = Waits.
Proof.
  intros Hopen [steps Hdiv] Hm Hpaused Hq Hne Hmq Hout.
  rewrite (Mix_FadeInMusicPos_eq sched st p m loops ms position Hopen Hm), Hdiv.
  unfold mbind at 1, M_bind at 1.
  rewrite (wait_for_fade_out_paused sched _ q mq); try assumption; [reflexivity|].
  state_simpl. rewrite lookup_insert_ne by congruence. exact Hmq.
Qed.

Lemma music_mixer_fade_out_done_eq (len : Z) (st : State W) (p : ptr) (m : Mix_Music) :
  active_has_decoder WAV_MUSIC st ->
  music_active st <> 0 ->
  music_playing st = Some p ->
  heap st !! p = Some m ->
  fading m = MIX_FADING_OUT ->
  fade_steps m <= fade_step m ->
  music_mixer WAV_MUSIC len st =
    Returns tt
      (set_finished_calls (finished_calls st ++ notified st)
         (set_music_playing None
            (set_heap
               (<[p := set_fading MIX_NO_FADING
                         (set_fade_step (int_add (fade_step m) 1) m)]> (heap st))
               (set_wav (WAVStream_Stop (wav st)) st)))).
Proof.
  intros Hinv Hactive Hp Hm Hout Hdone.
  assert (Hcase : has_case WAV_MUSIC (type m) = true).
  { destruct (Hinv p Hp) as (m' & Hm' & Hcase). congruence. }
  set (m1 := set_fade_step (int_add (fade_step m) 1) m).
  set (st1 := set_heap (<[p := m1]> (heap st)) st).
  assert (Hm1 : heap st1 !! p = Some m1) by (unfold st1; state_simpl; apply lookup_insert_eq).
  assert (Hlt : (fade_step m <? fade_steps m) = false) by (apply Z.ltb_ge; exact Hdone).
  assert (Hact : (music_active st =? 0) = false) by (apply Z.eqb_neq; exact Hactive).
  unfold music_mixer.
  destruct (Z.to_nat len); simpl;
    bind_step (eq_refl : gets music_playing st = Returns (music_playing st) st);
    bind_step (eq_refl : gets music_active st = Returns (music_active st) st);
    rewrite Hp, Hact; cbn [andb negb];
    bind_step (playing_ptr_eq st p Hp);
    bind_step (deref_eq st p m Hm);
    (destruct (decide (fading m = MIX_NO_FADING)) as [Hno|_]; [congruence|]);
    bind_step (store_eq st p m (set_fade_step (int_add (fade_step m) 1)) Hm);
    fold m1; fold st1; rewrite Hlt;
    bind_step (deref_eq st1 p m1 Hm1);
    (destruct (decide (fading m1 = MIX_FADING_OUT)) as [_|Hn]; [|contradiction]);
    bind_step (music_internal_halt_eq st1 p m1 Hp Hm1);
    change (type m1) with (type m); rewrite Hcase;
    rewrite call_music_finished_hook_eq; unfold notified, st1; state_simpl;
    rewrite insert_insert_eq;
    (destruct (music_finished_hook st); [destruct st; reflexivity|]);
    rewrite app_nil_r; destruct st; reflexivity.
Qed.

(** X7.  The callback that finds the fade-out of the active track complete
    (its step count reached) halts the track: the step is counted, the
    decoder is stopped, the fade is cleared, no track is active, the
    registered hook is called once, and no samples are asked for. *)
Theorem music_mixer_fade_out_done (len : Z) (st : State W) (p : ptr) (m : Mix_Music) :
  active_has_decoder WAV_MUSIC st ->
  music_active st <> 0 ->
  music_playing st = Some p ->
  heap st !! p = Some m ->
  fading m = MIX_FADING_OUT ->
  fade_steps m <= fade_step m ->
  exists st',
    music_mixer WAV_MUSIC len st = Returns tt st' /\
    music_playing st' = None /\
    heap st' !! p = Some (set_fading MIX_NO_FADING
                            (set_fade_step (int_add (fade_step m) 1) m)) /\
    wav st' = WAVStream_Stop (wav st) /\
    finished_calls st' = finished_calls st ++ notified st.
Proof.
  intros Hinv Hactive Hp Hm Hout Hdone.
  eexists. split; [apply (music_mixer_fade_out_done_eq len st p m); assumption|].
  state_simpl. rewrite lookup_insert_eq. auto.
Qed.

(** *** Halting twice, and the end-of-track check while playing *)

(** X8.  [Mix_HaltMusic] on a session whose active track has a decoder
    leaves no track active; the finished-hook is called once if a track was
    active and not at all otherwise, and a second [Mix_HaltMusic] changes
    nothing: a stop is notified once. *)
Theorem Mix_HaltMusic_once (st : State W) :
  active_has_decoder WAV_MUSIC st ->
  exists st',
    Mix_HaltMusic WAV_MUSIC st = Returns 0 st' /\
    music_playing st' = None /\
    finished_calls st' =
      finished_calls st ++ (if music_playing st is Some _ then notified st else []) /\
    Mix_HaltMusic WAV_MUSIC st' = Returns 0 st'.
Proof.
  intros Hinv.
  assert (Hidle : forall s : State W,
             music_playing s = None -> Mix_HaltMusic WAV_MUSIC s = Returns 0 s).
  { intros s Hs. unfold Mix_HaltMusic. unfold_M. rewrite Hs. reflexivity. }
  destruct (music_playing st) as [p|] eqn:Hp.
  - destruct (Hinv p Hp) as (m & Hm & Hcase).
    destruct (Mix_HaltMusic_eq st p m Hp Hm) as (st1 & Hhalt & _ & _ & Heq).
    rewrite (music_internal_halt_eq st p m Hp Hm), Hcase in Hhalt. simplify_eq.
    eexists. split; [exact Heq|]. split; [reflexivity|]. split; [reflexivity|].
    apply Hidle. reflexivity.
  - exists st. split; [apply Hidle, Hp|]. split; [exact Hp|].
    split; [rewrite app_nil_r; reflexivity|]. apply Hidle, Hp.
Qed.

(** X9.  The end-of-track check does nothing while the decoder of the
    active track reports that it is active (and returns 1); on an idle
    session it dereferences the null [music_playing]. *)
Theorem music_halt_or_loop_playing (st : State W) :
  (forall p m,
     music_playing st = Some p -> heap st !! p = Some m ->
     has_case WAV_MUSIC (type m) = true ->
     WAVStream_Active (wav st) <> 0 ->
     music_halt_or_loop WAV_MUSIC st = Returns 1 st) /\
  (music_playing st = None -> music_halt_or_loop WAV_MUSIC st = Faults).
Proof.
  split.
  - intros p m Hp Hm Hcase Hact. unfold music_halt_or_loop.
    bind_step (music_internal_playing_eq st p m Hp Hm). rewrite Hcase.
    destruct (Z.eqb_spec (WAVStream_Active (wav st)) 0) as [?|_]; [contradiction|].
    reflexivity.
  - intros Hp. unfold music_halt_or_loop, music_internal_playing, music_internal_halt.
    unfold_M. rewrite Hp. run_simpl.
    destruct (music_loops st =? 0); run_simpl; rewrite ?Hp;
      try reflexivity.
    destruct (music_loops st >? 0); run_simpl; rewrite ?Hp; reflexivity.
Qed.

(** *** A fade-out of a track that is not fading *)

Lemma fade_steps_ceiling (ms step : Z) :
  0 < ms -> 0 < step ->
  (Z.quot (ms + step - 1) step - 1) * step < ms <= Z.quot (ms + step - 1) step * step.
Proof.
  intros Hms Hstep.
  rewrite Z.quot_div_nonneg by lia.
  pose proof (Z.div_mod (ms + step - 1) step ltac:(lia)) as Hdiv.
  pose proof (Z.mod_pos_bound (ms + step - 1) step Hstep) as Hmod.
  nia.
Qed.

(** X10.  A fade-out of [ms > 0] milliseconds requested while the active
    track is not fading starts at step 0 and lasts the least number of
    callback periods that covers [ms]; the fade state becomes FADING_OUT, 1
    is returned and nothing else changes. *)
Theorem Mix_FadeOutMusic_fresh (st : State W) (p : ptr) (m : Mix_Music) (ms : Z) :
  0 < ms ->
  0 < ms_per_step st ->
  ms + ms_per_step st <= INT_MAX ->
  music_playing st = Some p ->
  heap st !! p = Some m ->
  fading m = MIX_NO_FADING ->
  exists n : Z,
    (n - 1) * ms_per_step st < ms <= n * ms_per_step st /\
    Mix_FadeOutMusic WAV_MUSIC ms st =
      Returns 1
        (set_heap
           (<[p := set_fade_steps n (set_fading MIX_FADING_OUT (set_fade_step 0 m))]>
              (heap st))
           st).
Proof.
  intros Hms Hstep Hfit Hp Hm Hfading.
  exists (Z.quot (ms + ms_per_step st - 1) (ms_per_step st)).
  split; [apply fade_steps_ceiling; assumption|].
  assert (Hquot : 0 <= Z.quot (ms + ms_per_step st - 1) (ms_per_step st)
                  <= ms + ms_per_step st - 1).
  { split; [apply Z.quot_pos; lia|].
    apply Z.quot_le_upper_bound; [lia|]. nia. }
  assert (Htotal : int_div (int_sub (int_add ms (ms_per_step st)) 1) (ms_per_step st)
                   = Some (Z.quot (ms + ms_per_step st - 1) (ms_per_step st))).
  { unfold int_sub, int_add.
    rewrite (wrap_int_small (ms + ms_per_step st))
      by (unfold in_int, INT_MIN, INT_MAX in *; lia).
    rewrite (wrap_int_small (ms + ms_per_step st - 1))
      by (unfold in_int, INT_MIN, INT_MAX in *; lia).
    apply int_div_quot; unfold in_int, INT_MIN, INT_MAX in *; lia. }
  unfold Mix_FadeOutMusic.
  bind_step (eq_refl : gets ms_per_step st = Returns (ms_per_step st) st).
  destruct (Z.eqb_spec (ms_per_step st) 0) as [?|_]; [lia|].
  destruct (Z.leb_spec ms 0) as [?|_]; [lia|].
  bind_step (eq_refl : gets music_playing st = Returns (music_playing st) st).
  rewrite Hp.
  bind_step (div_or_fault_eq st _ _ _ Htotal).
  bind_step (deref_eq st p m Hm).
  destruct (decide (fading m = MIX_NO_FADING)) as [_|?]; [|contradiction].
  bind_step (store_eq st p m (set_fade_step 0) Hm).
  erewrite bind_eq by (apply store_eq; state_simpl; apply lookup_insert_eq).
  cbv beta. state_simpl.
  erewrite bind_eq by (apply store_eq; state_simpl; apply lookup_insert_eq).
  cbv beta. state_simpl.
  rewrite !insert_insert_eq. reflexivity.
Qed.

(** *** Opening and closing the music system *)

(** X11.  [close_music] halts the active track, empties the decoder
    registry and marks the device closed; after it, a play request is
    refused with -1 and a fade-out with 0, both with the error "Audio device
    hasn't been opened" and no other effect. *)
Theorem close_music_closes (sched : schedule) (st : State W) (music : option ptr)
    (loops ms fade_ms : Z) (position : float) :
  active_has_decoder WAV_MUSIC st ->
  exists st',
    close_music WAV_MUSIC st = Returns tt st' /\
    music_playing st' = None /\
    music_decoders st' = [] /\
    num_decoders st' = 0 /\
    Mix_FadeInMusicPos WAV_MUSIC sched music loops ms position st' =
      Returns (-1) (set_SDL_error "Audio device hasn't been opened" st') /\
    Mix_FadeOutMusic WAV_MUSIC fade_ms st' =
      Returns 0 (set_SDL_error "Audio device hasn't been opened" st').
Proof.
  intros Hinv.
  assert (Hhalt : exists st1, Mix_HaltMusic WAV_MUSIC st = Returns 0 st1 /\
                              music_playing st1 = None).
  { destruct (music_playing st) as [p|] eqn:Hp.
    - destruct (Hinv p Hp) as (m & Hm & Hcase).
      destruct (Mix_HaltMusic_eq st p m Hp Hm) as (st1 & Hh & _ & _ & Heq).
      rewrite (music_internal_halt_eq st p m Hp Hm), Hcase in Hh. simplify_eq.
      eexists. split; [exact Heq|]. reflexivity.
    - exists st. split; [|exact Hp].
      unfold Mix_HaltMusic. unfold_M. rewrite Hp. reflexivity. }
  destruct Hhalt as (st1 & Hhalt & Hnone).
  exists (set_ms_per_step 0 (set_num_decoders 0 (set_music_decoders [] st1))).
  split.
  { unfold close_music. bind_step Hhalt. reflexivity. }
  repeat split; try assumption.
Qed.


(** X13.  A fade-out requested for a track that has just started to fade
    in (no callback has run yet) leaves it with the step count already
    reached: the next callback halts the track and calls the finished-hook,
    so the track stops at once instead of fading for [ms] milliseconds. *)
Theorem Mix_FadeOutMusic_after_fade_in (len : Z) (st : State W) (p : ptr) (m : Mix_Music)
    (ms : Z) :
  active_has_decoder WAV_MUSIC st ->
  music_active st <> 0 ->
  0 < ms ->
  0 < ms_per_step st ->
  ms + ms_per_step st <= INT_MAX ->
  music_playing st = Some p ->
  heap st !! p = Some m ->
  fading m = MIX_FADING_IN ->
  fade_step m = 0 ->
  0 < fade_steps m ->
  (fade_steps m + 1) * Z.quot (ms + ms_per_step st - 1) (ms_per_step st) <= INT_MAX ->
  exists st1 st2 m1,
    Mix_FadeOutMusic WAV_MUSIC ms st = Returns 1 st1 /\
    heap st1 !! p = Some m1 /\
    fading m1 = MIX_FADING_OUT /\
    fade_steps m1 <= fade_step m1 /\
    music_mixer WAV_MUSIC len st1 = Returns tt st2 /\
    music_playing st2 = None /\
    finished_calls st2 = finished_calls st ++ notified st.
Proof.
  intros Hinv Hactive Hms Hstep Hfit Hp Hm Hin Hzero Hold Hmul.
  unfold INT_MAX in Hfit, Hmul.
  set (T := Z.quot (ms + ms_per_step st - 1) (ms_per_step st)) in *.
  pose proof (fade_steps_ceiling ms (ms_per_step st) Hms Hstep) as Hceil. fold T in Hceil.
  assert (HT : 1 <= T <= ms + ms_per_step st - 1).
  { split; [nia|]. apply Z.quot_le_upper_bound; [lia|]. nia. }
  assert (Hsmall : forall z, 0 <= z <= 2147483647 -> wrap_int z = z).
  { intros z Hz. apply wrap_int_small. unfold in_int, INT_MIN, INT_MAX in *. lia. }
  assert (Htotal : int_div (int_sub (int_add ms (ms_per_step st)) 1) (ms_per_step st)
                   = Some T).
  { unfold int_sub, int_add.
    rewrite (Hsmall (ms + ms_per_step st)) by lia.
    rewrite (Hsmall (ms + ms_per_step st - 1)) by lia.
    apply int_div_quot; unfold in_int, INT_MIN, INT_MAX in *; fold T; lia. }
  set (q := Z.quot ((fade_steps m + 1) * T) (fade_steps m)).
  assert (Hq : T <= q <= (fade_steps m + 1) * T).
  { unfold q. split.
    - apply Z.quot_le_lower_bound; [lia|]. nia.
    - apply Z.quot_le_upper_bound; [lia|]. nia. }
  assert (Hquot : int_div (int_mul (int_add (int_sub (fade_steps m) (fade_step m)) 1) T)
                    (fade_steps m) = Some q).
  { unfold int_mul, int_add, int_sub. rewrite Hzero, Z.sub_0_r.
    rewrite (Hsmall (fade_steps m)) by nia.
    rewrite (Hsmall (fade_steps m + 1)) by nia.
    rewrite Hsmall by nia.
    apply int_div_quot; unfold in_int, INT_MIN, INT_MAX in *; fold q; nia. }
  set (m1 := set_fade_steps T (set_fading MIX_FADING_OUT (set_fade_step q m))).
  set (st1 := set_heap (<[p := m1]> (heap st)) st).
  assert (Hrun : Mix_FadeOutMusic WAV_MUSIC ms st = Returns 1 st1).
  { unfold Mix_FadeOutMusic.
    bind_step (eq_refl : gets ms_per_step st = Returns (ms_per_step st) st).
    destruct (Z.eqb_spec (ms_per_step st) 0) as [?|_]; [lia|].
    destruct (Z.leb_spec ms 0) as [?|_]; [lia|].
    bind_step (eq_refl : gets music_playing st = Returns (music_playing st) st).
    rewrite Hp.
    bind_step (div_or_fault_eq st _ _ _ Htotal).
    bind_step (deref_eq st p m Hm).
    destruct (decide (fading m = MIX_NO_FADING)) as [?|_]; [congruence|].
    destruct (decide (fading m = MIX_FADING_OUT)) as [?|_]; [congruence|].
    cbv zeta.
    erewrite bind_eq
      by (rewrite (bind_eq _ _ _ _ _ (div_or_fault_eq st _ _ _ Hquot));
          apply store_eq; exact Hm).
    cbv beta.
    erewrite bind_eq by (apply store_eq; state_simpl; apply lookup_insert_eq).
    cbv beta.
    erewrite bind_eq by (apply store_eq; state_simpl; apply lookup_insert_eq).
    cbv beta.
    unfold mret, M_ret, st1, m1. f_equal.
    state_simpl. rewrite !insert_insert_eq, !set_heap_set_heap. reflexivity. }
  assert (Hm1 : heap st1 !! p = Some m1) by (unfold st1; state_simpl; apply lookup_insert_eq).
  assert (Hinv1 : active_has_decoder WAV_MUSIC st1).
  { intros p' Hp'. unfold st1 in Hp'. state_simpl. rewrite Hp in Hp'. simplify_eq.
    exists m1. split; [exact Hm1|].
    destruct (Hinv p' Hp) as (m' & Hm' & Hcase). simplify_eq. exact Hcase. }
  exists st1. eexists. exists m1.
  split; [exact Hrun|]. split; [exact Hm1|]. split; [reflexivity|].
  split; [unfold m1; state_simpl; lia|].
  split.
  { apply (music_mixer_fade_out_done_eq len st1 p m1); try assumption; try reflexivity.
    unfold m1; state_simpl; lia. }
  split; reflexivity.
Qed.

(** *** What a session of calls never changes *)

Lemma Mix_HaltMusic_types : keeps same_types (Mix_HaltMusic WAV_MUSIC).
Proof.
  pose proof music_internal_halt_types.
  pose proof call_music_finished_hook_types.
  unfold Mix_HaltMusic. keeps_types; auto.
Qed.

Lemma Mix_VolumeMusic_types (volume : Z) :
  keeps same_types (Mix_VolumeMusic WAV_MUSIC volume).
Proof.
  pose proof music_internal_volume_types.
  unfold Mix_VolumeMusic. keeps_types; auto.
Qed.

Lemma run_call_types (c : call) : keeps same_types (run_call WAV_MUSIC c).
Proof.
  pose proof music_internal_play_types.
  pose proof music_internal_position_types.
  pose proof music_mixer_rec_types.
  pose proof wait_for_fade_out_types.
  pose proof Mix_HaltMusic_types.
  pose proof Mix_VolumeMusic_types.
  destruct c; unfold run_call.
  - unfold Mix_FadeInMusicPos, Mix_SetError. keeps_types; auto.
  - unfold Mix_SetMusicPosition, Mix_SetError. keeps_types; auto.
  - keeps_types; auto.
  - keeps_types; auto.
  - unfold Mix_FadeOutMusic, Mix_SetError. keeps_types; auto.
  - unfold Mix_PauseMusic. keeps_types.
  - unfold Mix_ResumeMusic. keeps_types.
  - unfold Mix_HookMusicFinished. keeps_types.
  - unfold music_mixer. auto.
  - unfold open_music, add_music_decoder. keeps_types; auto.
  - unfold close_music. keeps_types; auto.
Qed.

(** X14.  No call of the playback interface (play, seek, volume, halt,
    fade-out, pause, resume, hook registration, the mixing callback, open
    and close) creates, frees or changes the format of a track object: in
    every session reached by such calls each address holds an object of the
    format it held at the start, or none as at the start. *)
Theorem reachable_same_types (st0 st : State W) :
  reachable WAV_MUSIC st0 st -> same_types st0 st.
Proof.
  induction 1 as [|st st' c _ IH Hrun].
  - apply same_types_refl.
  - eapply same_types_trans; [exact IH|]. eapply run_call_types, Hrun.
Qed.

Lemma same_calls_refl (st : State W) : same_calls st st.
Proof. split; reflexivity. Qed.

Lemma same_calls_trans (st1 st2 st3 : State W) :
  same_calls st1 st2 -> same_calls st2 st3 -> same_calls st1 st3.
Proof. unfold same_calls. intros [? ?] [? ?]. split; congruence. Qed.

Ltac keeps_calls :=
  repeat first
    [ keeps_step same_calls_refl same_calls_trans
    | apply keeps_modify; intros ?; split; reflexivity
    | apply keeps_store; intros ? ? ?; split; reflexivity
    | assumption ].

Lemma music_internal_play_calls (music : ptr) (position : float) :
  keeps same_calls (music_internal_play WAV_MUSIC music position).
Proof.
  unfold music_internal_play, music_internal_halt, music_internal_initialize_volume,
    music_internal_volume, music_internal_position, wav_call, Mix_SetError.
  keeps_calls.
Qed.

(** X15.  Starting a track calls no finished-hook, also when it replaces a
    track that was active: a play request that returns without having
    waited for the audio thread leaves the trace of hook calls and the
    registered hook as they were. *)
Theorem Mix_FadeInMusicPos_no_hook (music : option ptr) (loops ms : Z) (position : float)
    (st st' : State W) (r : Z) :
  Mix_FadeInMusicPos WAV_MUSIC [] music loops ms position st = Returns r st' ->
  same_calls st st'.
Proof.
  pose proof music_internal_play_calls.
  revert st r st'. change (keeps same_calls
    (Mix_FadeInMusicPos WAV_MUSIC [] music loops ms position)).
  unfold Mix_FadeInMusicPos, wait_for_fade_out, Mix_SetError.
  keeps_calls; auto.
Qed.

(** X23.  The format reported for the active track is WAV in every session
    whose active track has a decoder: [Mix_GetMusicType(NULL)] returns
    MUS_WAV while a track is active and MUS_NONE on an idle session, and
    changes nothing. *)
Theorem Mix_GetMusicType_playing (st : State W) :
  active_has_decoder WAV_MUSIC st ->
  Mix_GetMusicType None st =
    Returns (if music_playing st is Some _ then MUS_WAV else MUS_NONE) st.
Proof.
  intros Hinv. unfold Mix_GetMusicType. unfold_M.
  destruct (music_playing st) as [p|] eqn:Hp; [|reflexivity].
  destruct (Hinv p Hp) as (m & Hm & Hcase). rewrite Hm.
  unfold has_case in Hcase. destruct (type m); try discriminate. reflexivity.
Qed.

(** *** Loading and freeing tracks *)

Section Loading.

Context {wav_loader : WAVStreamLoader W}.

Lemma detect_music_type_tracks (src : SDL_RWops) :
  keeps same_tracks (@detect_music_type W src).
Proof.
  assert (Hrefl : forall st : State W, same_tracks st st) by (split; reflexivity).
  assert (Htrans : forall st1 st2 st3 : State W,
             same_tracks st1 st2 -> same_tracks st2 st3 -> same_tracks st1 st3).
  { unfold same_tracks. intros st1 st2 st3 [? ?] [? ?]. split; congruence. }
  unfold detect_music_type, Mix_SetError.
  destruct (SDL_RWread src 4) as [[n1 bytes1] src1].
  destruct (SDL_RWread src1 8) as [[n2 bytes2] src2].
  cbv zeta.
  repeat first
    [ keeps_step Hrefl Htrans
    | apply keeps_modify; intros ?; split; reflexivity ].
Qed.

Lemma Mix_LoadMUSType_RW_post (addr : option ptr) (junk : Mix_Music)
    (src : option SDL_RWops) (t : Mix_MusicType) (freesrc : Z)
    (st st' : State W) (r : option ptr * option SDL_RWops) :
  (forall p, addr = Some p -> heap st !! p = None) ->
  Mix_LoadMUSType_RW WAV_MUSIC addr junk src t freesrc st = Returns r st' ->
  music_playing st' = music_playing st /\
  match fst r with
  | None => heap st' = heap st
  | Some p =>
      addr = Some p /\ WAV_MUSIC = true /\
      exists w, w <> 0%nat /\ heap st' = <[p := loaded w junk]> (heap st)
  end.
Proof.
  intros Hfresh H. unfold Mix_LoadMUSType_RW in H.
  destruct src as [src|];
    [|unfold Mix_SetError in H; unfold_M; simplify_eq; split; reflexivity].
  cbv zeta in H.
  destruct (decide (t = MUS_NONE)) as [_|_];
    [ apply bind_returns in H as (d & st1 & Hdet & H);
      apply detect_music_type_tracks in Hdet as [Hheap Hplaying];
      destruct (decide (fst d = MUS_NONE)) as [_|_];
      [ unfold SDL_RWclose in H; unfold_M;
        destruct (freesrc =? 0); cbn [negb] in H; simplify_eq; cbn [fst];
        split; assumption | ]
    | pose (st1 := st);
      assert (Hheap : heap st1 = heap st) by reflexivity;
      assert (Hplaying : music_playing st1 = music_playing st) by reflexivity;
      lazymatch type of H with ?c st = ?r => change (c st1 = r) in H end;
      clearbody st1 ].
  all: unfold SDL_malloc, SDL_free, SDL_RWclose, SDL_RWseek_to, wav_load_song,
         Mix_SetError, has_case in H.
  all: destruct addr as [p|];
    [ specialize (Hfresh p eq_refl); rewrite <- Hheap in Hfresh
    | unfold_M; repeat case_match; simplify_eq; state_simpl; auto ].
  all: unfold_M.
  all: repeat first
        [ progress state_simpl
        | progress cbn [fst snd] in *
        | rewrite lookup_insert_eq in *
        | progress simplify_eq
        | case_match ].
  all: cbn [fst snd]; (split; [state_simpl; congruence|]).
  all: state_simpl; rewrite ?insert_insert_eq.
  all: try (rewrite delete_insert_id by assumption; assumption).
  all: split; [reflexivity|]; split; [reflexivity|].
  all: eexists; split; [|unfold loaded; rewrite Hheap; reflexivity].
  all: match goal with
       | Hw : negb (_ =? 0)%nat = true |- _ =>
           apply negb_true_iff, Nat.eqb_neq in Hw; exact Hw
       end.
Qed.

(** X17.  What a load leaves behind.  With the allocator returning an
    unused address, [Mix_LoadMUSType_RW] (so [Mix_LoadMUS_RW]) never
    touches the active track, and: when it returns NULL the store of tracks
    is as before (the object allocated was freed); when it returns a track,
    the build has the WAV decoder, the track is the new object, of format
    WAV, with a non-null stream and the error flag clear, and no other
    object changed. *)
Theorem Mix_LoadMUSType_RW_result (addr : option ptr) (junk : Mix_Music)
    (src : option SDL_RWops) (t : Mix_MusicType) (freesrc : Z)
    (st st' : State W) (r : option ptr * option SDL_RWops) :
  (forall p, addr = Some p -> heap st !! p = None) ->
  Mix_LoadMUSType_RW WAV_MUSIC addr junk src t freesrc st = Returns r st'
  \/ Mix_LoadMUS_RW WAV_MUSIC addr junk src freesrc st = Returns r st' ->
  music_playing st' = music_playing st /\
  match fst r with
  | None => heap st' = heap st
  | Some p =>
      addr = Some p /\ WAV_MUSIC = true /\
      exists w, w <> 0%nat /\ heap st' = <[p := loaded w junk]> (heap st)
  end.
Proof.
  intros Hfresh [H|H]; eapply Mix_LoadMUSType_RW_post; eauto.
Qed.

Lemma Mix_LoadMUSType_RW_unsupported_eq (p : ptr) (junk : Mix_Music) (src : SDL_RWops)
    (t : Mix_MusicType) (freesrc : Z) (st : State W) :
  t <> MUS_NONE ->
  has_case WAV_MUSIC t = false ->
  heap st !! p = None ->
  Mix_LoadMUSType_RW WAV_MUSIC (Some p) junk (Some src) t freesrc st =
    Returns (None, if freesrc =? 0
                   then Some (snd (SDL_RWseek_SET src (SDL_RWtell src))) else None)
      (set_SDL_error "Unrecognized music format" st).
Proof.
  intros Ht Hcase Hfresh.
  unfold Mix_LoadMUSType_RW. cbv zeta.
  destruct (decide (t = MUS_NONE)) as [?|_]; [contradiction|].
  rewrite Hcase.
  unfold SDL_malloc, SDL_free, SDL_RWclose, SDL_RWseek_to, Mix_SetError. unfold_M.
  repeat (state_simpl; rewrite ?lookup_insert_eq; cbn [error set_error]).
  change (1 =? 0) with false. cbn [negb].
  repeat (state_simpl; rewrite ?lookup_insert_eq; cbn [error set_error]).
  rewrite insert_insert_eq, (delete_insert_id _ _ _ Hfresh).
  destruct (freesrc =? 0); cbn [negb]; destruct st; reflexivity.
Qed.

(** X18.  A request for a format the build cannot play (any format but
    WAV, and WAV too without the WAV decoder) fails with NULL and the error
    "Unrecognized music format": the object allocated is freed again, the
    decoder is not called, a source the caller keeps ([freesrc] = 0) is
    left at the position it had, and a source given away is closed. *)
Theorem Mix_LoadMUSType_RW_unsupported (p : ptr) (junk : Mix_Music) (src : SDL_RWops)
    (t : Mix_MusicType) (freesrc : Z) (st : State W) :
  t <> MUS_NONE ->
  has_case WAV_MUSIC t = false ->
  heap st !! p = None ->
  0 <= rw_here src <= rw_size src ->
  Mix_LoadMUSType_RW WAV_MUSIC (Some p) junk (Some src) t freesrc st =
    Returns (None, if freesrc =? 0 then Some src else None)
      (set_SDL_error "Unrecognized music format" st).
Proof.
  intros Ht Hcase Hfresh Hhere.
  rewrite (Mix_LoadMUSType_RW_unsupported_eq p junk src t freesrc st Ht Hcase Hfresh).
  assert (Hback : snd (SDL_RWseek_SET src (SDL_RWtell src)) = src).
  { unfold SDL_RWtell. destruct src as [data here].
    apply (SDL_RWseek_SET_back {| rw_data := data; rw_here := here |} here);
      simpl in *; lia. }
  rewrite Hback. reflexivity.
Qed.


(** X19.  [Mix_LoadMUS] never returns NULL with an empty error string, and
    what it returns otherwise is a WAV track: when it returns NULL the
    error string is set and the store is as before; when it returns a
    track, the build has the WAV decoder and the track is the new object,
    of format WAV with a non-null stream.  The active track is not
    touched. *)
Theorem Mix_LoadMUS_result (SDL_RWFromFile : string -> option SDL_RWops)
    (addr : option ptr) (junk : Mix_Music) (file : string)
    (st st' : State W) (r : option ptr) :
  (forall p, addr = Some p -> heap st !! p = None) ->
  Mix_LoadMUS WAV_MUSIC SDL_RWFromFile addr junk file st = Returns r st' ->
  music_playing st' = music_playing st /\
  match r with
  | None => heap st' = heap st /\ SDL_error st' <> EmptyString
  | Some p =>
      addr = Some p /\ WAV_MUSIC = true /\
      exists w, w <> 0%nat /\ heap st' = <[p := loaded w junk]> (heap st)
  end.
Proof.
  intros Hfresh H. unfold Mix_LoadMUS in H.
  destruct (SDL_RWFromFile file) as [src|].
  2: { unfold Mix_SetError in H. unfold_M. simplify_eq. state_simpl.
       split; [reflexivity|]. split; [reflexivity|]. simpl. discriminate. }
  cbv zeta in H.
  apply bind_returns in H as (d & st1 & Hdet & H).
  assert (Hd : same_tracks st st1).
  { destruct (decide _) in Hdet.
    - eapply detect_music_type_tracks, Hdet.
    - unfold_M. simplify_eq. split; reflexivity. }
  destruct Hd as [Hheap Hplaying].
  apply bind_returns in H as ([] & st2 & Hclear & H).
  unfold Mix_SetError, modify in Hclear. simplify_eq.
  apply bind_returns in H as (music & st3 & Hload & H).
  apply Mix_LoadMUSType_RW_post in Hload as [Hplaying3 Hload];
    [|intros q Hq; state_simpl; rewrite Hheap; auto].
  state_simpl. rewrite Hheap in Hload. rewrite Hplaying in Hplaying3.
  unfold Mix_SetError in H. unfold_M.
  destruct (fst music) as [q|] eqn:Hmusic; cbn [andb] in H.
  - simplify_eq. state_simpl. auto.
  - destruct (SDL_error st3) eqn:Herr; simplify_eq; state_simpl.
    + split; [assumption|]. split; [assumption|]. discriminate.
    + split; [assumption|]. split; [assumption|]. rewrite Herr. discriminate.
Qed.

Lemma wait_for_fading_keeps (music : ptr) (sched : schedule) :
  keeps (keeps_decoder WAV_MUSIC) (wait_for_fading WAV_MUSIC music sched) /\
  keeps same_types (wait_for_fading WAV_MUSIC music sched).
Proof.
  pose proof music_mixer_rec_keeps_decoder.
  pose proof run_callbacks_types.
  assert (Hrun : forall lens, keeps (keeps_decoder WAV_MUSIC) (run_callbacks WAV_MUSIC lens)).
  { induction lens as [|len lens IH]; simpl; unfold music_mixer; keeps_decoder_tac; auto. }
  induction sched as [|lens sched [IH1 IH2]]; simpl;
    (split; [keeps_decoder_tac | keeps_types]); auto.
Qed.

(** X20.  After [Mix_FreeMusic] the track is gone and is not the active
    track: freeing the active track first waits for its fade-out and halts
    it.  On a session whose active track has a decoder, when the call
    returns, the address is free, [music_playing] does not point to it, the
    active track (if another) still has a decoder, and the tracks at other
    addresses keep their formats. *)
Theorem Mix_FreeMusic_frees (sched : schedule) (music : ptr) (st st' : State W) :
  active_has_decoder WAV_MUSIC st ->
  Mix_FreeMusic WAV_MUSIC sched (Some music) st = Returns tt st' ->
  heap st' !! music = None /\
  music_playing st' <> Some music /\
  active_has_decoder WAV_MUSIC st' /\
  forall q, q <> music -> type <$> (heap st' !! q) = type <$> (heap st !! q).
Proof.
  intros Hinv H. unfold Mix_FreeMusic in H.
  apply bind_returns in H as (mp & st0 & Hget & H).
  unfold gets in Hget. simplify_eq.
  apply bind_returns in H as ([] & st1 & Hstop & H).
  assert (Hst1 : active_has_decoder WAV_MUSIC st1 /\ same_types st0 st1 /\
                 music_playing st1 <> Some music).
  { destruct (decide (music_playing st0 = Some music)) as [Hp|Hp].
    - apply bind_returns in Hstop as ([] & sta & Hwait & Hstop).
      destruct (wait_for_fading_keeps music sched) as [Hk Ht].
      pose proof (Hk _ _ _ Hwait Hinv) as Hinva.
      pose proof (Ht _ _ _ Hwait) as Htypes.
      unfold gets in Hstop. unfold mbind, M_bind in Hstop.
      destruct (decide (music_playing sta = Some music)) as [Hpa|Hpa].
      + destruct (Hinva music Hpa) as (m & Hm & Hcase).
        rewrite (music_internal_halt_eq sta music m Hpa Hm), Hcase in Hstop.
        simplify_eq. split; [|split].
        * intros q Hq. discriminate.
        * eapply same_types_trans; [exact Htypes|].
          intros q. state_simpl.
          destruct (decide (music = q)) as [<-|Hne].
          -- rewrite lookup_insert_eq, Hm. reflexivity.
          -- rewrite lookup_insert_ne by assumption. reflexivity.
        * discriminate.
      + unfold_M. simplify_eq. auto.
    - unfold_M. simplify_eq. split; [assumption|].
      split; [apply same_types_refl | assumption]. }
  destruct Hst1 as (Hinv1 & Htypes1 & Hp1).
  apply bind_returns in H as (m & st2 & Hderef & H).
  unfold deref in Hderef. destruct (heap st1 !! music) as [m'|] eqn:Hm; simplify_eq.
  apply bind_returns in H as ([] & st3 & Hfree & H).
  assert (Hst3 : heap st3 = heap st2 /\ music_playing st3 = music_playing st2).
  { destruct (has_case WAV_MUSIC (type m)); unfold wav_call in Hfree; unfold_M;
      simplify_eq; split; reflexivity. }
  destruct Hst3 as [Hheap3 Hp3].
  unfold SDL_free in H. unfold_M. rewrite Hheap3, Hm in H. simplify_eq.
  state_simpl. rewrite Hheap3, Hp3.
  split; [apply lookup_delete_eq|]. split; [assumption|]. split.
  - intros q Hq. state_simpl. rewrite ?Hp3 in Hq.
    destruct (Hinv1 q Hq) as (mq & Hmq & Hcase).
    exists mq. split; [|exact Hcase].
    rewrite lookup_delete_ne by congruence. exact Hmq.
  - intros q Hq. rewrite lookup_delete_ne by congruence.
    symmetry. apply Htypes1.
Qed.

(** X21.  Loading a track and freeing it again is a round trip: after
    [Mix_FreeMusic] of the track a load returned, the store of tracks and
    the active track are those before the load; the free does not wait. *)
Theorem Mix_FreeMusic_after_load (sched : schedule) (addr : option ptr) (junk : Mix_Music)
    (src : option SDL_RWops) (t : Mix_MusicType) (freesrc : Z)
    (st st1 : State W) (p : ptr) (s : option SDL_RWops) :
  playing_valid st ->
  (forall q, addr = Some q -> heap st !! q = None) ->
  Mix_LoadMUSType_RW WAV_MUSIC addr junk src t freesrc st = Returns (Some p, s) st1 ->
  exists st2,
    Mix_FreeMusic WAV_MUSIC sched (Some p) st1 = Returns tt st2 /\
    heap st2 = heap st /\
    music_playing st2 = music_playing st.
Proof.
  intros Hvalid Hfresh Hload.
  apply Mix_LoadMUSType_RW_post in Hload as [Hplaying Hload]; [|assumption].
  cbn [fst] in Hload. destruct Hload as (Haddr & Hwav & w & Hw & Hheap).
  specialize (Hfresh p Haddr).
  assert (Hne : music_playing st1 <> Some p).
  { rewrite Hplaying. intros Hp. unfold playing_valid in Hvalid.
    rewrite Hp, Hfresh in Hvalid. destruct Hvalid as [? ?]. discriminate. }
  assert (Hm : heap st1 !! p = Some (loaded w junk))
    by (rewrite Hheap; apply lookup_insert_eq).
  unfold Mix_FreeMusic.
  bind_step (eq_refl : gets music_playing st1 = Returns (music_playing st1) st1).
  destruct (decide (music_playing st1 = Some p)) as [?|_]; [contradiction|].
  unfold SDL_free, wav_call. unfold_M. rewrite Hm.
  change (type (loaded w junk)) with MUS_WAV. unfold has_case. rewrite Hwav.
  state_simpl. rewrite Hm. eexists. split; [reflexivity|].
  state_simpl. rewrite Hheap, (delete_insert_id _ _ _ Hfresh). auto.
Qed.

End Loading.

End ControllerFacts.

(** * The properties on concrete sessions *)

Local Open Scope string_scope.

(** C2: a source with two bytes left.  The first read is short, detection
    returns MUS_NONE, and the read position is left at 2, not at 0: the
    early return skips the seek back to [start]. *)
Theorem detect_music_type_short_read_moves :
  detect_music_type {| rw_data := ["R"; "I"]%byte; rw_here := 0 |} initial_state
  = Returns (MUS_NONE, {| rw_data := ["R"; "I"]%byte; rw_here := 2 |})
      (set_SDL_error "Couldn't read from RWops" initial_state).
Proof. reflexivity. Qed.

(** C4 on twelve zero bytes: the catch-all MOD. *)
Lemma detect_music_type_rules_witness :
  detect_music_type {| rw_data := replicate 12 x00; rw_here := 0 |} initial_state
  = Returns (MUS_MOD, {| rw_data := replicate 12 x00; rw_here := 0 |}) initial_state.
Proof.
  exact (detect_music_type_rules [] (replicate 12 x00) [] initial_state eq_refl).
Defined.

Lemma detect_music_type_restores_position_witness :
  exists t src' st',
    detect_music_type {| rw_data := replicate 12 x00; rw_here := 0 |} initial_state
    = Returns (t, src') st' /\
    SDL_RWtell src' = 0.
Proof.
  apply (detect_music_type_restores_position
           {| rw_data := replicate 12 x00; rw_here := 0 |} initial_state).
  - simpl. lia.
  - simpl. lia.
Defined.

Lemma opened_session_valid : playing_valid opened_session.
Proof. exact I. Defined.

Lemma playing_session_valid (loops pos : Z) : playing_valid (playing_session loops pos).
Proof. exists (wav_track 1000%nat). reflexivity. Defined.

Lemma playing_session_decoder (loops pos : Z) :
  active_has_decoder true (playing_session loops pos).
Proof.
  intros p Hp. exists (wav_track 1000%nat).
  vm_compute in Hp. injection Hp as <-. split; reflexivity.
Defined.

Lemma opened_session_idle (p : ptr) : no_fade_out_pending opened_session p.
Proof. intros q mq Hq. discriminate Hq. Defined.

(** C1: playing the loaded track from position 1.5 on an idle, open
    session.  The call returns -1 and no track is active: it does not
    succeed with the track active. *)
Lemma Mix_FadeInMusicPos_position_counterexample :
  exists st',
    Mix_FadeInMusicPos true [] (Some 1%nat) 0 0 1.5 opened_session = Returns (-1) st' /\
    music_playing st' = None /\
    SDL_error st' = "Position not implemented for music type" /\
    ~ (exists st'', Mix_FadeInMusicPos true [] (Some 1%nat) 0 0 1.5 opened_session
                    = Returns 0 st'' /\ music_playing st'' = Some 1%nat).
Proof.
  eexists. split; [vm_compute; reflexivity|]. split; [reflexivity|]. split; [reflexivity|].
  intros (st'' & H & _). vm_compute in H. discriminate H.
Qed.

Lemma Mix_FadeInMusicPos_position_fails_witness :
  exists st',
    Mix_FadeInMusicPos true [] (Some 1%nat) 0 0 1.5 opened_session = Returns (-1) st'.
Proof.
  apply (Mix_FadeInMusicPos_position_fails true [] opened_session 1%nat
           (wav_track 1000%nat) 0 0 1.5).
  - discriminate.
  - reflexivity.
  - reflexivity.
  - exact opened_session_valid.
  - exact (opened_session_idle 1%nat).
  - eexists. reflexivity.
Defined.

(** C5: on the open session, a loop count of 1 is stored as 0 and a loop
    count of 3 as 3. *)
Lemma Mix_FadeInMusicPos_loops_witness :
  (exists r st',
     Mix_FadeInMusicPos true [] (Some 1%nat) 1 0 0 opened_session = Returns r st' /\
     music_loops st' = 0) /\
  (exists r st',
     Mix_FadeInMusicPos true [] (Some 1%nat) 3 0 0 opened_session = Returns r st' /\
     music_loops st' = 3).
Proof.
  split.
  - destruct (proj2 (Mix_FadeInMusicPos_loops true [] opened_session (Some 1%nat) 0 0)
                1 1%nat (wav_track 1000%nat) eq_refl ltac:(discriminate) eq_refl)
      as [Hstored Hreturns].
    destruct (Hreturns opened_session_valid (opened_session_idle 1%nat)
                ltac:(eexists; reflexivity)) as (r & st' & H).
    exists r, st'. split; [exact H|]. apply (Hstored r st' H). reflexivity.
  - destruct (proj2 (Mix_FadeInMusicPos_loops true [] opened_session (Some 1%nat) 0 0)
                3 1%nat (wav_track 1000%nat) eq_refl ltac:(discriminate) eq_refl)
      as [Hstored Hreturns].
    destruct (Hreturns opened_session_valid (opened_session_idle 1%nat)
                ltac:(eexists; reflexivity)) as (r & st' & H).
    exists r, st'. split; [exact H|]. apply (Hstored r st' H). discriminate.
Defined.

(** A negative start position is not an error: the track is started from
    its beginning and stays active. *)
Example Mix_FadeInMusicPos_negative_position :
  exists st',
    Mix_FadeInMusicPos true [] (Some 1%nat) 0 0 (-1.5) opened_session = Returns 0 st' /\
    music_playing st' = Some 1%nat /\
    SDL_error st' = SDL_error opened_session.
Proof.
  eexists. split; [vm_compute; reflexivity|]. split; reflexivity.
Qed.

(** A fade-in shorter than one callback step has 0 steps: a fade-out
    requested before the next callback divides by zero. *)
Example Mix_FadeOutMusic_zero_steps :
  (Mix_FadeInMusicPos true [] (Some 1%nat) 0 5 0 ≫= fun _ => Mix_FadeOutMusic true 100)
    opened_session = Faults.
Proof. vm_compute. reflexivity. Qed.

(** C3: a fade-out of 40 ms (4 steps) requested at step 2 of a fade-out of
    3 steps.  The new step is 2, the truncation of 8/3, where rounding
    gives 3. *)
Lemma Mix_FadeOutMusic_rescales_counterexample :
  exists st' m',
    Mix_FadeOutMusic true 40 (fading_session MIX_FADING_OUT 2 3) = Returns 1 st' /\
    heap st' !! 1%nat = Some m' /\
    fade_step m' = 2 /\
    ~ rounds (fade_step m') (2 * 4) 3 /\
    rounds 3 (2 * 4) 3.
Proof.
  eexists. eexists. split; [vm_compute; reflexivity|]. split; [vm_compute; reflexivity|].
  split; [reflexivity|].
  unfold rounds. simpl. lia.
Qed.

Lemma Mix_FadeOutMusic_rescales_witness :
  exists st' m',
    Mix_FadeOutMusic true 40 (fading_session MIX_FADING_OUT 2 3) = Returns 1 st' /\
    heap st' !! 1%nat = Some m' /\
    fade_step m' = Z.quot (2 * 4) 3 /\ fade_steps m' = 4 /\ fading m' = MIX_FADING_OUT.
Proof.
  eexists. eexists. split.
  - apply (Mix_FadeOutMusic_rescales true (fading_session MIX_FADING_OUT 2 3) 1%nat
             (set_fade_steps 3 (set_fade_step 2 (set_fading MIX_FADING_OUT (wav_track 1000%nat))))
             40).
    + lia.
    + discriminate.
    + reflexivity.
    + reflexivity.
    + discriminate.
    + discriminate.
    + repeat constructor; vm_compute; discriminate.
  - split; [apply lookup_insert_eq|]. split; [reflexivity|]. split; reflexivity.
Defined.

(** C6: the decoder is at the end of the stream and 2 loops remain. *)
Lemma Mix_PlayingMusic_iff_witness :
  WAVStream_Active (wav (playing_session 2 1000)) = 0 /\
  Mix_PlayingMusic true (playing_session 2 1000) = Returns 1 (playing_session 2 1000).
Proof.
  split; [reflexivity|].
  destruct (Mix_PlayingMusic_iff true (playing_session 2 1000) (playing_session_valid 2 1000))
    as (r & Heq & _ & _ & Hloops).
  rewrite Heq. f_equal. apply Hloops; discriminate.
Defined.

(** C7: a volume of 200 is stored as 128 and handed to the decoder. *)
Lemma Mix_VolumeMusic_clamps_witness :
  exists st',
    Mix_VolumeMusic true 200 (set_music_volume 50 (playing_session 0 0)) = Returns 50 st' /\
    music_volume st' = 128 /\ wp_volume (wav st') = 128.
Proof.
  destruct (Mix_VolumeMusic_clamps true 200 (set_music_volume 50 (playing_session 0 0))
              (playing_session_valid 0 0))
    as (st' & Heq & _ & Hset).
  exists st'. split; [exact Heq|].
  destruct Hset as (Hvol & _ & _ & Hwav); [lia|].
  split; [exact Hvol|]. rewrite Hwav. reflexivity.
Defined.

(** C8: [Mix_FadeOutMusic(0)] on a playing session calls the hook once. *)
Lemma Mix_FadeOutMusic_nonpositive_halts_witness :
  exists st',
    Mix_FadeOutMusic true 0 (playing_session 0 0) = Returns 1 st' /\
    Mix_HaltMusic true (playing_session 0 0) = Returns 0 st' /\
    finished_calls st' = [7%nat] /\
    music_playing st' = None.
Proof.
  destruct (Mix_FadeOutMusic_nonpositive_halts true 0 (playing_session 0 0))
    as (st' & Hfade & Hhalt & Hcalls & Hstop).
  - lia.
  - discriminate.
  - exact (playing_session_valid 0 0).
  - exists st'. split; [exact Hfade|]. split; [exact Hhalt|]. split; [exact Hcalls|].
    apply (Hstop (wav_track 1000%nat) eq_refl eq_refl).
Defined.

(** C9: the end of the stream with 2 loops left, and with none. *)
Lemma music_halt_or_loop_at_end_witness :
  (exists st',
     music_halt_or_loop true (playing_session 2 1000) = Returns 1 st' /\
     music_loops st' = 1 /\ music_playing st' = Some 1%nat /\
     heap st' = heap (playing_session 2 1000) /\ finished_calls st' = []) /\
  (exists st',
     music_halt_or_loop true (playing_session 0 1000) = Returns 0 st' /\
     music_playing st' = None /\ finished_calls st' = [7%nat]).
Proof.
  split.
  - eexists. split.
    + apply (music_halt_or_loop_at_end true (playing_session 2 1000) 1%nat (wav_track 1000%nat));
        try reflexivity; [apply playing_session_decoder | discriminate].
    + repeat split; vm_compute; reflexivity.
  - eexists. split.
    + apply (music_halt_or_loop_at_end true (playing_session 0 1000) 1%nat (wav_track 1000%nat));
        try reflexivity. apply playing_session_decoder.
    + repeat split; vm_compute; reflexivity.
Defined.

(** C10: one decoder is registered. *)
Lemma Mix_GetMusicDecoder_in_bounds_witness :
  Mix_GetMusicDecoder 0 opened_session = Returns (Some "WAVE") opened_session /\
  Mix_GetMusicDecoder 1 opened_session = Returns None opened_session /\
  Mix_GetMusicDecoder (-1) opened_session = Returns None opened_session.
Proof.
  assert (Hok : registry_ok opened_session) by reflexivity.
  split; [|split].
  - destruct (proj2 (Mix_GetMusicDecoder_in_bounds 0 opened_session Hok))
      as (name & Hname & Heq); [vm_compute; split; [discriminate|reflexivity]|].
    rewrite Heq. vm_compute in Hname. congruence.
  - apply (proj1 (Mix_GetMusicDecoder_in_bounds 1 opened_session Hok)).
    right. vm_compute. discriminate.
  - apply (proj1 (Mix_GetMusicDecoder_in_bounds (-1) opened_session Hok)).
    left. lia.
Defined.

(** The invariant on a session reached by two calls: play, then a callback. *)
Lemma reachable_active_has_decoder_witness :
  exists st,
    reachable true opened_session st /\
    music_playing st = Some 1%nat /\
    active_has_decoder true st.
Proof.
  eexists. split; [|split].
  - eapply (reachable_call true opened_session _ _ (CallMixer 64)).
    + eapply (reachable_call true opened_session _ _
                (CallFadeInMusicPos [] (Some 1%nat) 0 0 0)).
      * apply reachable_start.
      * vm_compute. reflexivity.
    + vm_compute. reflexivity.
  - reflexivity.
  - eapply (reachable_active_has_decoder true opened_session).
    + intros p Hp. discriminate Hp.
    + eapply (reachable_call true opened_session _ _ (CallMixer 64)).
      * eapply (reachable_call true opened_session _ _
                  (CallFadeInMusicPos [] (Some 1%nat) 0 0 0)).
        -- apply reachable_start.
        -- vm_compute. reflexivity.
      * vm_compute. reflexivity.
Defined.

(** The mixing function on a buffer of 64 bytes with 24 bytes of the stream
    left and 2 loops: extra fuel changes nothing. *)
Lemma music_mixer_rec_fuel_witness :
  music_mixer_rec true 100 64 (playing_session 2 976)
  = music_mixer_rec true 64 64 (playing_session 2 976).
Proof.
  apply (music_mixer_rec_fuel true 100 64 64 (playing_session 2 976)); lia.
Defined.

(** X4: seeking in the active track of a playing session. *)
Lemma Mix_SetMusicPosition_unsupported_witness :
  Mix_SetMusicPosition 2.5 (playing_session 0 0) =
    Returns (-1)
      (set_SDL_error "Position not implemented for music type" (playing_session 0 0)) /\
  Mix_RewindMusic (playing_session 0 0) =
    Returns tt
      (set_SDL_error "Position not implemented for music type" (playing_session 0 0)).
Proof.
  apply (Mix_SetMusicPosition_unsupported 2.5 (playing_session 0 0)).
  exists (wav_track 1000%nat). reflexivity.
Defined.

(** X5: a callback on the paused session changes nothing. *)
Lemma music_mixer_paused_witness :
  music_mixer true 64 (paused_fading_session 1) = Returns tt (paused_fading_session 1) /\
  run_callbacks true [64; 64; 32] (paused_fading_session 1)
    = Returns tt (paused_fading_session 1).
Proof.
  apply (music_mixer_paused true 64 [64; 64; 32] (paused_fading_session 1)).
  left. reflexivity.
Defined.

(** X6: playing the second track while the first, paused, fades out; the
    audio thread runs three callbacks during the wait. *)
Lemma Mix_FadeInMusicPos_paused_waits_witness :
  Mix_FadeInMusicPos true [[64]; [64; 64]] (Some 2%nat) 0 0 0 (paused_fading_session 1)
  = Waits.
Proof.
  apply (Mix_FadeInMusicPos_paused_waits true [[64]; [64; 64]] (paused_fading_session 1)
           2%nat 1%nat (wav_track 500%nat)
           (set_fade_steps 3 (set_fade_step 1 (set_fading MIX_FADING_OUT (wav_track 1000%nat))))
           0 0 0).
  - discriminate.
  - exists 0. reflexivity.
  - reflexivity.
  - reflexivity.
  - reflexivity.
  - discriminate.
  - reflexivity.
  - reflexivity.
Defined.

(** X7: the callback at step 3 of a fade-out of 3 steps. *)
Lemma music_mixer_fade_out_done_witness :
  exists st',
    music_mixer true 64 (fading_session MIX_FADING_OUT 3 3) = Returns tt st' /\
    music_playing st' = None /\
    heap st' !! 1%nat =
      Some (set_fading MIX_NO_FADING
              (set_fade_step (int_add 3 1)
                 (set_fade_steps 3
                    (set_fade_step 3 (set_fading MIX_FADING_OUT (wav_track 1000%nat)))))) /\
    wav st' = WAVStream_Stop (wav (fading_session MIX_FADING_OUT 3 3)) /\
    finished_calls st' = [7%nat].
Proof.
  apply (music_mixer_fade_out_done true 64 (fading_session MIX_FADING_OUT 3 3) 1%nat
           (set_fade_steps 3 (set_fade_step 3 (set_fading MIX_FADING_OUT (wav_track 1000%nat))))).
  - intros p Hp. vm_compute in Hp. injection Hp as <-.
    eexists. split; reflexivity.
  - discriminate.
  - reflexivity.
  - reflexivity.
  - reflexivity.
  - simpl. lia.
Defined.

(** X8: halting the playing session, twice. *)
Lemma Mix_HaltMusic_once_witness :
  exists st',
    Mix_HaltMusic true (playing_session 0 0) = Returns 0 st' /\
    music_playing st' = None /\
    finished_calls st' = [7%nat] /\
    Mix_HaltMusic true st' = Returns 0 st'.
Proof.
  apply (Mix_HaltMusic_once true (playing_session 0 0)).
  apply playing_session_decoder.
Defined.

(** X9: the end-of-track check on a stream at byte 10 of 1000. *)
Lemma music_halt_or_loop_playing_witness :
  music_halt_or_loop true (playing_session 0 10) = Returns 1 (playing_session 0 10).
Proof.
  apply (proj1 (music_halt_or_loop_playing true (playing_session 0 10))
           1%nat (wav_track 1000%nat)).
  - reflexivity.
  - reflexivity.
  - reflexivity.
  - discriminate.
Defined.

(** X10: a fade-out of 25 ms with 10 ms per callback lasts 3 steps. *)
Lemma Mix_FadeOutMusic_fresh_witness :
  exists n : Z,
    (n - 1) * 10 < 25 <= n * 10 /\
    Mix_FadeOutMusic true 25 (playing_session 0 0) =
      Returns 1
        (set_heap
           (<[1%nat := set_fade_steps n
                         (set_fading MIX_FADING_OUT (set_fade_step 0 (wav_track 1000%nat)))]>
              (heap (playing_session 0 0)))
           (playing_session 0 0)).
Proof.
  apply (Mix_FadeOutMusic_fresh true (playing_session 0 0) 1%nat (wav_track 1000%nat) 25).
  - lia.
  - simpl. lia.
  - vm_compute. discriminate.
  - reflexivity.
  - reflexivity.
  - reflexivity.
Defined.

(** X11: closing the playing session, then asking for the track again. *)
Lemma close_music_closes_witness :
  exists st',
    close_music true (playing_session 0 0) = Returns tt st' /\
    music_playing st' = None /\
    music_decoders st' = [] /\
    num_decoders st' = 0 /\
    Mix_FadeInMusicPos true [] (Some 1%nat) 0 0 0 st' =
      Returns (-1) (set_SDL_error "Audio device hasn't been opened" st') /\
    Mix_FadeOutMusic true 100 st' =
      Returns 0 (set_SDL_error "Audio device hasn't been opened" st').
Proof.
  apply (close_music_closes true [] (playing_session 0 0) (Some 1%nat) 0 0 100 0).
  apply playing_session_decoder.
Defined.


(** X13: a fade-out of 30 ms right after the start of a fade-in of 5
    steps: the next callback stops the track. *)
Lemma Mix_FadeOutMusic_after_fade_in_witness :
  exists st1 st2 m1,
    Mix_FadeOutMusic true 30 (fading_session MIX_FADING_IN 0 5) = Returns 1 st1 /\
    heap st1 !! 1%nat = Some m1 /\
    fading m1 = MIX_FADING_OUT /\
    fade_steps m1 <= fade_step m1 /\
    music_mixer true 64 st1 = Returns tt st2 /\
    music_playing st2 = None /\
    finished_calls st2 = [7%nat].
Proof.
  apply (Mix_FadeOutMusic_after_fade_in true 64 (fading_session MIX_FADING_IN 0 5) 1%nat
           (set_fade_steps 5 (set_fade_step 0 (set_fading MIX_FADING_IN (wav_track 1000%nat))))
           30).
  - intros p Hp. vm_compute in Hp. injection Hp as <-.
    eexists. split; reflexivity.
  - discriminate.
  - lia.
  - simpl. lia.
  - vm_compute. discriminate.
  - reflexivity.
  - reflexivity.
  - reflexivity.
  - reflexivity.
  - simpl. lia.
  - vm_compute. discriminate.
Defined.

(** X14: after a play request and a callback, the track at address 1 is
    the WAV track it was. *)
Lemma reachable_same_types_witness :
  exists st,
    reachable true opened_session st /\
    music_playing st = Some 1%nat /\
    same_types opened_session st.
Proof.
  eexists. split; [|split].
  - eapply (reachable_call true opened_session _ _ (CallMixer 64)).
    + eapply (reachable_call true opened_session _ _
                (CallFadeInMusicPos [] (Some 1%nat) 0 0 0)).
      * apply reachable_start.
      * vm_compute. reflexivity.
    + vm_compute. reflexivity.
  - reflexivity.
  - eapply (reachable_same_types true opened_session).
    eapply (reachable_call true opened_session _ _ (CallMixer 64)).
    + eapply (reachable_call true opened_session _ _
                (CallFadeInMusicPos [] (Some 1%nat) 0 0 0)).
      * apply reachable_start.
      * vm_compute. reflexivity.
    + vm_compute. reflexivity.
Defined.

(** X15: playing the active track again restarts it; the hook registered
    is not called. *)
Lemma Mix_FadeInMusicPos_no_hook_witness :
  exists st',
    Mix_FadeInMusicPos true [] (Some 1%nat) 0 0 0 (playing_session 0 500) = Returns 0 st' /\
    same_calls (playing_session 0 500) st'.
Proof.
  eexists. split.
  - vm_compute. reflexivity.
  - eapply (Mix_FadeInMusicPos_no_hook true (Some 1%nat) 0 0 0 (playing_session 0 500)).
    vm_compute. reflexivity.
Defined.

(** X16: the extensions wav and WAV are equal, in either order. *)
Lemma MIX_string_equals_iff_witness :
  MIX_string_equals (c_str "wav") (c_str "WAV") = 1 /\
  MIX_string_equals (c_str "WAV") (c_str "wav") = 1.
Proof.
  destruct (MIX_string_equals_iff (str_bytes "wav") (str_bytes "WAV"))
    as (Hone & _ & Hsym).
  - repeat constructor; discriminate.
  - repeat constructor; discriminate.
  - split.
    + apply Hone. reflexivity.
    + change (MIX_string_equals (str_bytes "WAV" ++ [0]) (str_bytes "wav" ++ [0]) = 1).
      rewrite <- Hsym. apply Hone. reflexivity.
Defined.

(** X17: loading the RIFF source at the unused address 2. *)
Lemma Mix_LoadMUSType_RW_result_witness :
  exists st' s,
    Mix_LoadMUSType_RW true (Some 2%nat) (wav_track 0%nat) (Some riff_source) MUS_NONE 1
      opened_session = Returns (Some 2%nat, s) st' /\
    music_playing st' = None /\
    exists w, w <> 0%nat /\
      heap st' = <[2%nat := loaded w (wav_track 0%nat)]> (heap opened_session).
Proof.
  edestruct (Mix_LoadMUSType_RW_result true (Some 2%nat) (wav_track 0%nat)
               (Some riff_source) MUS_NONE 1 opened_session) as (Hplaying & Hrest).
  - intros p Hp. injection Hp as <-. reflexivity.
  - left. vm_compute. reflexivity.
  - destruct Hrest as (_ & _ & Hw).
    eexists. eexists. split; [vm_compute; reflexivity|].
    split; [exact Hplaying | exact Hw].
Defined.

(** X18: asking for the RIFF source as Ogg Vorbis, keeping the source. *)
Lemma Mix_LoadMUSType_RW_unsupported_witness :
  Mix_LoadMUSType_RW true (Some 2%nat) (wav_track 0%nat) (Some riff_source) MUS_OGG 0
    opened_session =
    Returns (None, Some riff_source)
      (set_SDL_error "Unrecognized music format" opened_session).
Proof.
  apply (Mix_LoadMUSType_RW_unsupported true 2%nat (wav_track 0%nat) riff_source MUS_OGG 0
           opened_session).
  - discriminate.
  - reflexivity.
  - reflexivity.
  - vm_compute. split; discriminate.
Defined.

(** X19: a file that cannot be opened, and a file that holds RIFF data. *)
Lemma Mix_LoadMUS_result_witness :
  (exists st',
     Mix_LoadMUS true (fun _ => None) (Some 2%nat) (wav_track 0%nat) "theme.wav"
       opened_session = Returns None st' /\
     heap st' = heap opened_session /\ SDL_error st' <> EmptyString) /\
  (exists st',
     Mix_LoadMUS true (fun _ => Some riff_source) (Some 2%nat) (wav_track 0%nat) "theme.wav"
       opened_session = Returns (Some 2%nat) st' /\
     exists w, w <> 0%nat /\
       heap st' = <[2%nat := loaded w (wav_track 0%nat)]> (heap opened_session)).
Proof.
  split.
  - eexists. split; [vm_compute; reflexivity|].
    apply (Mix_LoadMUS_result true (fun _ => None) (Some 2%nat) (wav_track 0%nat)
             "theme.wav" opened_session _ None).
    + intros p Hp. injection Hp as <-. reflexivity.
    + vm_compute. reflexivity.
  - edestruct (Mix_LoadMUS_result true (fun _ => Some riff_source) (Some 2%nat)
                 (wav_track 0%nat) "theme.wav" opened_session) as (_ & Hrest).
    + intros p Hp. injection Hp as <-. reflexivity.
    + vm_compute. reflexivity.
    + destruct Hrest as (_ & _ & Hw).
      eexists. split; [vm_compute; reflexivity | exact Hw].
Defined.

(** X20: freeing the active track of the playing session. *)
Lemma Mix_FreeMusic_frees_witness :
  exists st',
    Mix_FreeMusic true [] (Some 1%nat) (playing_session 0 0) = Returns tt st' /\
    heap st' !! 1%nat = None /\
    music_playing st' <> Some 1%nat /\
    active_has_decoder true st'.
Proof.
  edestruct (Mix_FreeMusic_frees true [] 1%nat (playing_session 0 0))
    as (Hgone & Hidle & Hinv & _).
  - apply playing_session_decoder.
  - vm_compute. reflexivity.
  - eexists. split; [vm_compute; reflexivity|].
    split; [exact Hgone|]. split; [exact Hidle | exact Hinv].
Defined.

(** X21: loading the RIFF source at address 2 and freeing the track. *)
Lemma Mix_FreeMusic_after_load_witness :
  exists st1 s st2,
    Mix_LoadMUSType_RW true (Some 2%nat) (wav_track 0%nat) (Some riff_source) MUS_NONE 1
      (playing_session 0 0) = Returns (Some 2%nat, s) st1 /\
    Mix_FreeMusic true [] (Some 2%nat) st1 = Returns tt st2 /\
    heap st2 = heap (playing_session 0 0) /\
    music_playing st2 = Some 1%nat.
Proof.
  edestruct (Mix_FreeMusic_after_load true [] (Some 2%nat) (wav_track 0%nat)
               (Some riff_source) MUS_NONE 1 (playing_session 0 0))
    as (st2 & Hfree & Hheap & Hplaying).
  - apply playing_session_valid.
  - intros p Hp. injection Hp as <-. reflexivity.
  - vm_compute. reflexivity.
  - eexists. eexists. exists st2. split; [vm_compute; reflexivity|].
    split; [exact Hfree|]. split; [exact Hheap | exact Hplaying].
Defined.


(** X23: the format of the active track of the playing session. *)
Lemma Mix_GetMusicType_playing_witness :
  Mix_GetMusicType None (playing_session 0 0) = Returns MUS_WAV (playing_session 0 0).
Proof.
  apply (Mix_GetMusicType_playing true (playing_session 0 0)).
  apply playing_session_decoder.
Defined.
